(** * grbl-stream: the protocol core of [index.js], embedded and verified

    The development follows [index.js] top-down: the helpers on strings and
    buffers that stand for the JavaScript built-ins the file calls, the line
    framer of [_write], the boot interpreters installed by the constructor,
    the response decoders, [command] with its lock and its [_ok] listener,
    and then the theorems.

    Conventions.  A JavaScript string is represented by the bytes of its
    UTF-8 encoding, as a [string]; every test the source makes on strings
    (prefixes, suffixes, the characters [=], [:], [|], [,], the space, the
    digits and letters of the regular expressions) is on ASCII characters,
    whose encoding is one byte that occurs in no other character's encoding.
    A [Buffer] is a list of bytes.  [undefined] is [None]. *)

From Stdlib Require Import ZArith QArith Qround Lqa Ascii String DecimalString.
From stdpp Require Import base option list strings gmap.
From Stdlib.Strings Require Import Byte.

Local Open Scope string_scope.
Local Open Scope list_scope.

(** ** Strings: the built-ins of [String.prototype] used by the source *)

Module JsString.

(** [s.startsWith(p)] *)
Fixpoint startsWith (p s : string) : bool :=
  match p, s with
  | EmptyString, _ => true
  | String a p', String b s' => if Ascii.eqb a b then startsWith p' s' else false
  | String _ _, EmptyString => false
  end.

(** [s.slice(n)] for [0 <= n] *)
Fixpoint slice_from (n : nat) (s : string) : string :=
  match n, s with
  | O, _ => s
  | S n', String _ s' => slice_from n' s'
  | S _, EmptyString => EmptyString
  end.

(** [s.slice(0, n)] for [0 <= n] *)
Fixpoint slice_to (n : nat) (s : string) : string :=
  match n, s with
  | O, _ => EmptyString
  | S n', String a s' => String a (slice_to n' s')
  | S _, EmptyString => EmptyString
  end.

(** [s.endsWith(p)] *)
Definition endsWith (p s : string) : bool :=
  if decide (String.length p <= String.length s)%nat
  then String.eqb (slice_from (String.length s - String.length p) s) p
  else false.

(** [s.slice(a, -b)]: from index [a] to [b] characters before the end *)
Definition slice (a b : nat) (s : string) : string :=
  slice_to (String.length s - b - a) (slice_from a s).

(** The longest prefix of [s] whose characters satisfy [f], and the rest:
    what a greedy character class [[...]*] of a regular expression
    consumes. *)
Fixpoint span (f : ascii -> bool) (s : string) : string * string :=
  match s with
  | EmptyString => (EmptyString, EmptyString)
  | String a s' =>
      if f a then let '(p, r) := span f s' in (String a p, r)
      else (EmptyString, s)
  end.

(** [s.split(sep)] where the separator is one character out of a class
    (a one-character string, or a regular expression that is an
    alternation of characters).  The result is never empty. *)
Fixpoint split (sep : ascii -> bool) (s : string) : list string :=
  match s with
  | EmptyString => [EmptyString]
  | String a s' =>
      if sep a then EmptyString :: split sep s'
      else match split sep s' with
           | piece :: pieces => String a piece :: pieces
           | [] => [String a EmptyString]
           end
  end.

(** [pieces.join(sep)] *)
Fixpoint join (sep : string) (pieces : list string) : string :=
  match pieces with
  | [] => EmptyString
  | [piece] => piece
  | piece :: rest => piece +:+ sep +:+ join sep rest
  end.

Definition all (f : ascii -> bool) (s : string) : bool :=
  forallb f (list_ascii_of_string s).

Definition is_digit (c : ascii) : bool :=
  let n := nat_of_ascii c in (48 <=? n)%nat && (n <=? 57)%nat.

Definition is_letter (c : ascii) : bool :=
  let n := nat_of_ascii c in
  ((65 <=? n)%nat && (n <=? 90)%nat) || ((97 <=? n)%nat && (n <=? 122)%nat).

End JsString.

(** ** The line framer: [_write] *)

Definition Buffer := list byte.

(** [const DELIMETER = Buffer.from('\r\n')] *)
Definition DELIMETER : Buffer := [x0d; x0a].

Module Buf.

Fixpoint startsWith (needle buffer : Buffer) : bool :=
  match needle, buffer with
  | [], _ => true
  | a :: needle', b :: buffer' =>
      if Byte.eqb a b then startsWith needle' buffer' else false
  | _ :: _, [] => false
  end.

(** [buffer.indexOf(needle)], with [None] for [-1] *)
Fixpoint indexOf (needle buffer : Buffer) : option nat :=
  if startsWith needle buffer then Some O
  else match buffer with
       | [] => None
       | _ :: buffer' => S <$> indexOf needle buffer'
       end.

(** [buffer.toString('utf8')], for bytes that are well-formed UTF-8: the
    string that they encode.  Where the bytes are ill-formed the source
    gets a string with U+FFFD in their place; that is not represented. *)
Definition toString (buffer : Buffer) : string := string_of_list_byte buffer.

(** [Buffer.from(s)] *)
Definition from (s : string) : Buffer := list_byte_of_string s.

End Buf.

(** The [while] loop of [_write].  It returns the lines handed to
    [this._parse], in order, and the buffer left when no delimiter remains.
    Every iteration removes at least the delimiter from the buffer, so the
    length of the buffer bounds the number of iterations: [frame] runs the
    loop with that many. *)
Fixpoint write_loop (fuel : nat) (buffer : Buffer) : list string * Buffer :=
  match fuel with
  | O => ([], buffer)
  | S fuel' =>
      match Buf.indexOf DELIMETER buffer with
      | None => ([], buffer)
      | Some position =>
          let line := take position buffer in
          let '(lines, rest) :=
            write_loop fuel' (drop (position + length DELIMETER) buffer) in
          (match line with
           | [] => lines
           | _ :: _ => Buf.toString line :: lines
           end, rest)
      end
  end.

(** [let buffer = Buffer.concat([this._buffer, data])], then the loop. *)
Definition frame (_buffer data : Buffer) : list string * Buffer :=
  let buffer := _buffer ++ data in
  write_loop (length buffer) buffer.

(** Feeding a sequence of chunks, one [_write] per chunk, starting from the
    buffer [_buffer]: the lines dispatched over all the calls, and the last
    buffer. *)
Fixpoint feed (_buffer : Buffer) (chunks : list Buffer) : list string * Buffer :=
  match chunks with
  | [] => ([], _buffer)
  | data :: chunks' =>
      let '(lines, rest) := frame _buffer data in
      let '(lines', rest') := feed rest chunks' in
      (lines ++ lines', rest')
  end.


(** ** Numbers: [parseFloat], [parseInt] and [Number.prototype.toFixed]

    A JavaScript number is represented by its mathematical value, a rational
    kept in lowest terms, or is [NaN] or an infinity.  Rounding to binary64,
    with its overflow to an infinity and its underflow to zero, and the
    sign of zero are outside this representation: [parseFloat] and
    [parseInt] below give the exact value of the literal they read, which
    is the value of the source where binary64 holds it exactly, as it does
    for the decimal literals of the protocol and of the examples ([0.000],
    [1.500], [-2.000], [-100]). *)

Module JsNumber.

Inductive number :=
| NaN
| Inf (negative : bool)
| Fin (q : Q).

Definition of_Z (negative : bool) (z : Z) : number :=
  Fin (Qred (inject_Z (if negative then - z else z))).

(** The ASCII members of [StrWhiteSpaceChar]; its other members, such as
    the no-break space, are not skipped by [trimStart] below. *)
Definition is_whitespace (c : ascii) : bool :=
  let n := nat_of_ascii c in
  ((9 <=? n)%nat && (n <=? 13)%nat) || (n =? 32)%nat.

Definition trimStart (s : string) : string := (JsString.span is_whitespace s).2.

(** An optional sign, as [parseFloat] and [parseInt] read it. *)
Definition sign (s : string) : bool * string :=
  match s with
  | String "-" r => (true, r)
  | String "+" r => (false, r)
  | _ => (false, s)
  end.

(** The value of a string of decimal digits, most significant first. *)
Fixpoint digits_value (acc : Z) (s : string) : Z :=
  match s with
  | EmptyString => acc
  | String c r => digits_value (10 * acc + (Z.of_nat (nat_of_ascii c) - 48)) r
  end.

(** The [ExponentPart] at the head of [s], if there is a whole one;
    otherwise the exponent is not part of the literal, and counts as 0. *)
Definition exponent (s : string) : Z :=
  match s with
  | String c r =>
      if Ascii.eqb c "e" || Ascii.eqb c "E" then
        let '(negative, r') := sign r in
        let '(digits, _) := JsString.span JsString.is_digit r' in
        match digits with
        | EmptyString => 0
        | _ => if negative then - digits_value 0 digits else digits_value 0 digits
        end
      else 0
  | EmptyString => 0
  end%Z.

(** [parseFloat(arg)]: leading white space is skipped, then the longest
    prefix that is a [StrDecimalLiteral] is read; [NaN] when there is none.
    [parseFloat(undefined)] reads the string [undefined], which is [NaN]. *)
Definition parseFloat (arg : option string) : number :=
  match arg with
  | None => NaN
  | Some input =>
      let '(negative, s) := sign (trimStart input) in
      if JsString.startsWith "Infinity" s then Inf negative
      else
        let '(whole, r) := JsString.span JsString.is_digit s in
        let '(fraction, r') :=
          match r with
          | String "." after => JsString.span JsString.is_digit after
          | _ => (EmptyString, r)
          end in
        match whole +:+ fraction with
        | EmptyString => NaN
        | digits =>
            let mantissa := inject_Z (digits_value 0 digits) in
            let scale :=
              Qpower (10 # 1) (exponent r' - Z.of_nat (String.length fraction)) in
            Fin (Qred ((if negative then - mantissa else mantissa) * scale))
        end
  end.

(** [parseInt(arg, 10)] *)
Definition parseInt (arg : option string) : number :=
  match arg with
  | None => NaN
  | Some input =>
      let '(negative, s) := sign (trimStart input) in
      match (JsString.span JsString.is_digit s).1 with
      | EmptyString => NaN
      | digits => of_Z negative (digits_value 0 digits)
      end
  end.

(** The decimal digits of a natural number, [0] for zero. *)
Definition decimal (n : Z) : string := NilZero.string_of_uint (N.to_uint (Z.to_N n)).

Fixpoint zeros (n : nat) : string :=
  match n with
  | O => EmptyString
  | S n' => String "0" (zeros n')
  end.

(** Steps 8.a to 8.c of [Number.prototype.toFixed] for one fraction digit
    and [0 <= x < 10^21]: [n] is the integer for which [n / 10 - x] is
    closest to zero, the larger one of two; its digits are padded with
    zeros to two characters and the point goes before the last one. *)
Definition fixed1 (x : Q) : string :=
  let n := Qfloor (x * (10 # 1) + (1 # 2)) in
  let m := decimal n in
  let m := zeros (2 - String.length m) +:+ m in
  let k := String.length m in
  JsString.slice_to (k - 1) m +:+ "." +:+ JsString.slice_from (k - 1) m.

Definition toFixed_limit : Q := Qpower (10 # 1) 21.

(** [x.toFixed(1)].  From [10^21] on the source's built-in answers with
    [Number::toString], the shortest digits that read back as the same
    binary64 value, in exponent notation: a function of the host,
    [toString] here. *)
Definition toFixed1 (toString : Q -> string) (x : number) : string :=
  match x with
  | NaN => "NaN"
  | Inf negative => if negative then "-Infinity" else "Infinity"
  | Fin q =>
      let negative := negb (Qle_bool 0 q) in
      let magnitude := if negative then (- q)%Q else q in
      (if negative then "-" else "") +:+
      (if Qle_bool toFixed_limit magnitude then toString magnitude
       else fixed1 magnitude)
  end.

End JsNumber.

Export JsNumber(number(..)).


(** ** Errors and the host *)

(** [ProtocolError] and [CommandError], the two subclasses of [GrblError],
    with the fields their constructors set. *)
Inductive GrblError :=
| ProtocolError (message : string) (input : option string)
| CommandError (errorCode : string) (errorMessage errorDescription : option string).

(** How a template literal prints a value that may be [undefined]. *)
Definition interpolate (v : option string) : string := default "undefined" v.

(** The [message] that the constructors hand to [Error]. *)
Definition error_message (e : GrblError) : string :=
  match e with
  | ProtocolError message _ => message
  | CommandError code message description =>
      "[" +:+ interpolate message +:+ "] " +:+ interpolate description
          +:+ " (code: " +:+ code +:+ ")"
  end.

(** A row of a catalog: the object that [csvParse] with [columns: true]
    makes of a line of the file, from column name to text. *)
Abbreviation row := (gmap string string).

(** What [index.js] takes from outside: the two catalogs, read by
    [readCodes] from [codes/error_codes.csv] and [codes/setting_codes.csv],
    files that are not part of the sources at hand, and the printing of
    large numbers by the JavaScript engine (see [JsNumber.toFixed1]).
    They are parameters of everything below. *)
Class Host := {
  ERROR_CODES : list row;
  SETTING_CODES : list row;
  Number_toString : Q -> string
}.

(** [rows.find(r => r[column] === code) || {}] *)
Definition find_row (rows : list row) (column code : string) : row :=
  default ∅ (List.find (fun r => bool_decide (r !! column = Some code)) rows).

(** [CommandError.fromCode] *)
Definition fromCode `{Host} (code : string) : GrblError :=
  let row := find_row ERROR_CODES "Error Code" code in
  CommandError code (row !! "Error Message") (row !! "Error Description").

(** ** Response decoders *)

(** What an asynchronous operation of the source ends with: it throws (its
    promise is rejected) or it returns. *)
Abbreviation outcome A := (GrblError + A)%type.

(** [await] of an operation that ended with [r], then [k] on what it
    returned: a rejection goes through. *)
Definition and_then {A B : Type} (r : outcome A) (k : A -> outcome B) : outcome B :=
  match r with
  | inl e => inl e
  | inr a => k a
  end.

(** [!input] for a value that is a string or [undefined] *)
Definition falsy (input : option string) : bool :=
  match input with
  | None | Some EmptyString => true
  | Some _ => false
  end.

(** [parseMessage] *)
Definition parseMessage (input : option string) (prefix : string) : outcome string :=
  let prefix := "[" +:+ prefix +:+ ":" in
  match input with
  | Some s =>
      if falsy input || negb (JsString.startsWith prefix s)
         || negb (JsString.endsWith "]" s)
      then inl (ProtocolError ("Expected input format " +:+ prefix +:+ "]") input)
      else inr (JsString.slice (String.length prefix) 1 s)
  | None => inl (ProtocolError ("Expected input format " +:+ prefix +:+ "]") input)
  end.

(** [help], after its [command('$')] has returned [lines] *)
Definition help_decode (lines : list string) : outcome string :=
  parseMessage (last lines) "HLP".

(** The [line.match] of [settings] and the two groups of its match.  The
    regular expression is anchored at the start only and reads a [$], one
    or more characters other than [=] (the code), a [=], and any number of
    characters other than a space (the value).  The first class cannot run
    over a [=] and the second cannot run over a space, so the greedy
    reading is the only one. *)
Definition match_setting (line : string) : option (string * string) :=
  match line with
  | String "$" r =>
      let '(code, r') := JsString.span (fun c => negb (Ascii.eqb c "=")) r in
      match code, r' with
      | String _ _, String "=" r'' =>
          Some (code, (JsString.span (fun c => negb (Ascii.eqb c " ")) r'').1)
      | _, _ => None
      end
  | _ => None
  end.

Record Setting := {
  code : string;
  setting : option string;
  units : option string;
  description : option string;
  value : string
}.

(** The body of the [map] callback of [settings]. *)
Definition setting_of_line `{Host} (line : string) : outcome Setting :=
  match match_setting line with
  | Some (code, value) =>
      let row := find_row SETTING_CODES "Code" code in
      inr {| code := code;
             setting := row !! "Setting";
             units := row !! "Units";
             description := row !! "Setting Description";
             value := value |}
  | None => inl (ProtocolError "Expected settings format $x=val" (Some line))
  end.

(** [settings], after its [command('$$')] has returned [lines]: the [map]
    goes through the lines in order and stops at the first that throws. *)
Fixpoint settings_decode `{Host} (lines : list string) : outcome (list Setting) :=
  match lines with
  | [] => inr []
  | line :: lines' =>
      match setting_of_line line with
      | inl e => inl e
      | inr s =>
          match settings_decode lines' with
          | inl e => inl e
          | inr ss => inr (s :: ss)
          end
      end
  end.

Record MachineStatus := {
  state : option string;
  machinePosition : option (number * number * number);
  workCoordinateOffset : option (number * number * number);
  buffer : option (number * number);
  feedAndSpeed : option (number * number);
  pinState : option string;
  overrideValues : option (number * number * number)
}.

(** The body of the [forEach] callback of [status]: the segment is split
    at every [:] and [,], the first piece selects the field, the next three
    are its values, [undefined] when the segment has fewer pieces. *)
Definition status_segment (result : MachineStatus) (segment : string) : MachineStatus :=
  let pieces :=
    JsString.split (fun ch => Ascii.eqb ch ":" || Ascii.eqb ch ",") segment in
  let type := pieces !! 0%nat in
  let a := pieces !! 1%nat in
  let b := pieces !! 2%nat in
  let c := pieces !! 3%nat in
  let pf := JsNumber.parseFloat in
  let pi := JsNumber.parseInt in
  let '{| state := st; machinePosition := mp; workCoordinateOffset := wco;
          buffer := bf; feedAndSpeed := fs; pinState := pn;
          overrideValues := ov |} := result in
  if bool_decide (type = Some "MPos") then
    {| state := st; machinePosition := Some (pf a, pf b, pf c);
       workCoordinateOffset := wco; buffer := bf; feedAndSpeed := fs;
       pinState := pn; overrideValues := ov |}
  else if bool_decide (type = Some "WCO") then
    {| state := st; machinePosition := mp;
       workCoordinateOffset := Some (pf a, pf b, pf c); buffer := bf;
       feedAndSpeed := fs; pinState := pn; overrideValues := ov |}
  else if bool_decide (type = Some "Bf") then
    {| state := st; machinePosition := mp; workCoordinateOffset := wco;
       buffer := Some (pi a, pi b); feedAndSpeed := fs; pinState := pn;
       overrideValues := ov |}
  else if bool_decide (type = Some "FS") then
    {| state := st; machinePosition := mp; workCoordinateOffset := wco;
       buffer := bf; feedAndSpeed := Some (pi a, pi b); pinState := pn;
       overrideValues := ov |}
  else if bool_decide (type = Some "Pn") then
    {| state := st; machinePosition := mp; workCoordinateOffset := wco;
       buffer := bf; feedAndSpeed := fs; pinState := a; overrideValues := ov |}
  else if bool_decide (type = Some "Ov") then
    {| state := st; machinePosition := mp; workCoordinateOffset := wco;
       buffer := bf; feedAndSpeed := fs; pinState := pn;
       overrideValues := Some (pi a, pi b, pi c) |}
  else result.

(** [status], after its [command('?')] has returned [lines]. *)
Definition status_decode (lines : list string) : outcome MachineStatus :=
  let status := last lines in
  match status with
  | Some s =>
      if falsy status || negb (JsString.startsWith "<" s)
         || negb (JsString.endsWith ">" s)
      then inl (ProtocolError "Expected status format" status)
      else
        let segments := JsString.split (Ascii.eqb "|") (JsString.slice 1 1 s) in
        let result :=
          {| state := segments !! 0%nat; machinePosition := None;
             workCoordinateOffset := None; buffer := None;
             feedAndSpeed := None; pinState := None; overrideValues := None |} in
        inr (fold_left status_segment segments result)
  | None => inl (ProtocolError "Expected status format" status)
  end.

(** ** [position] *)

(** A value that [position] takes for a coordinate, as an argument or as a
    field of its point: [undefined] (so is a field that the point has not),
    [null], or a number. *)
Inductive coordinate :=
| undefined
| null
| num (n : number).

(** [formatCoordinate]: [coord != null] is false for [null] and for
    [undefined], and the function returns [undefined] then. *)
Definition formatCoordinate `{Host} (axis : string) (coord : coordinate) : option string :=
  match coord with
  | num n => Some (axis +:+ JsNumber.toFixed1 Number_toString n)
  | undefined | null => None
  end.

(** [Boolean(v)] for a value that is a string or [undefined] *)
Definition truthy (v : option string) : bool := negb (falsy v).

(** The first argument of [position]: a point object, of which the fields
    [x], [y] and [z] are read, or the first of three coordinates. *)
Inductive position_arg :=
| Point (x y z : coordinate)
| Coordinate (x : coordinate).

(** The text that [position] hands to [command].  [typeof xOrPoint] is
    ['object'] for a point and also for [null]; reading [xOrPoint.x] of
    [null] throws a [TypeError], and there is no text then: [None]. *)
Definition position_text `{Host} (xOrPoint : position_arg) (y z : coordinate) : option string :=
  let fields :=
    match xOrPoint with
    | Point px py pz => Some (px, py, pz)
    | Coordinate null => None
    | Coordinate x => Some (x, y, z)
    end in
  match fields with
  | Some (x, y, z) =>
      let coordinates :=
        omap id
          (List.filter truthy
             [formatCoordinate "X" x; formatCoordinate "Y" y; formatCoordinate "Z" z]) in
      Some (JsString.join " " coordinates)
  | None => None
  end.


(** ** The boot interpreters and the stream *)

(** The [data.match] of [onversion] and the group of its match.  The
    regular expression is anchored at both ends and reads [Grbl ], then the
    group: one or more digits, a point, one or more digits and one letter
    of [a-z] or [A-Z]; then [ ['$' for help]].  A run of digits ends where
    the next character is no digit, so the greedy reading is the only
    one. *)
Definition match_version (data : string) : option string :=
  if JsString.startsWith "Grbl " data then
    let '(major, r) := JsString.span JsString.is_digit (JsString.slice_from 5 data) in
    match major, r with
    | String _ _, String "." r' =>
        let '(minor, r'') := JsString.span JsString.is_digit r' in
        match minor, r'' with
        | String _ _, String letter tail =>
            if JsString.is_letter letter && String.eqb tail " ['$' for help]"
            then Some (major +:+ "." +:+ minor +:+ String letter EmptyString)
            else None
        | _, _ => None
        end
    | _, _ => None
    end
  else None.

(** The value of [this._parse]: one of the three closures of the
    constructor. *)
Inductive interpreter := onversion | onheader | onmessage.

(** The operations of the class.  Each calls [command] once, with the text
    [request_text], and makes its result from the lines that [command]
    returns ([decode]): [command] itself, [help], [settings], [status], and
    the operations that await [command] and return nothing ([Void]). *)
Inductive request :=
| Command (cmd : string)
| Help
| Settings
| Status
| Void (cmd : string).

Definition request_text (r : request) : string :=
  match r with
  | Command cmd | Void cmd => cmd
  | Help => "$"
  | Settings => "$$"
  | Status => "?"
  end.

Definition runHomingCycle : request := Void "$H".
Definition killAlarmLock : request := Void "$X".
Definition rapidTravel : request := Void "G00".
Definition imperialCoordinates : request := Void "G20".
Definition metricCoordinates : request := Void "G21".
Definition absolutePositioning : request := Void "G90".
Definition incrementalPositioning : request := Void "G91".

(** [position]: the operation that [command] is called for, and [None]
    when reading the arguments throws the [TypeError]: the promise of
    [position] is rejected with it and [command] is not called. *)
Definition position `{Host} (xOrPoint : position_arg) (y z : coordinate) : option request :=
  Void <$> position_text xOrPoint y z.

Inductive reply :=
| Lines (lines : list string)
| HelpText (text : string)
| SettingList (settings : list Setting)
| StatusReport (status : MachineStatus)
| Nothing.

Definition decode `{Host} (r : request) (lines : list string) : outcome reply :=
  match r with
  | Command _ => inr (Lines lines)
  | Help => and_then (help_decode lines) (fun text => inr (HelpText text))
  | Settings => and_then (settings_decode lines) (fun l => inr (SettingList l))
  | Status => and_then (status_decode lines) (fun st => inr (StatusReport st))
  | Void _ => inr Nothing
  end.

(** One call of an operation: its request, the array [lines] and the
    promise of its [_ok] (pending while [None]), and the promise that the
    operation returned to its caller. *)
Record call := {
  request_of : request;
  ok_lines : list string;
  ok_promise : option (outcome (list string));
  returned : option (outcome reply)
}.

(** What the stream does to the outside: chunks pushed to its readable
    side, events emitted, and [destroy]. *)
Inductive effect :=
| push (chunk : string)
| emit_version (version : string)
| emit_command (cmd : string)
| emit_message (data : string)
| destroy (err : GrblError).

(** The callbacks that wait for a promise, run one at a time once the
    running code has returned: the [then] of [onheader], the rest of
    [command] after [await this._lock()] and the rest of the operation
    after [await this._ok()]. *)
Inductive job :=
| header_then (data : string)
| lock_then (id : nat)
| ok_then (id : nat).

(** Modelled from the spec: the lock that [mutexify/promise] makes, a
    package that is not part of the sources at hand.  "Exclusive access
    (queued, fair, first-come-first-served)": the lock is held or free, and
    those who asked while it was held wait in the order they asked.  The
    constructor holds it from the start ([const future = lock()]). *)
Record Lock := {
  locked : bool;
  waiting : list nat
}.

(** A [GrblStream]: the fields [_parse], [_buffer] and [_lock] of the
    object, the listeners that [_ok] has subscribed to [message] (each is
    the closure of one call, named by the number of the call), the calls
    made so far, the callbacks that wait to run, and what the stream has
    done so far. *)
Record GrblStream := {
  _parse : interpreter;
  _buffer : Buffer;
  _lock : Lock;
  listeners : list nat;
  calls : list call;
  jobs : list job;
  effects : list effect
}.

Definition with_parse (p : interpreter) (s : GrblStream) : GrblStream :=
  {| _parse := p; _buffer := _buffer s; _lock := _lock s;
     listeners := listeners s; calls := calls s; jobs := jobs s;
     effects := effects s |}.

Definition with_buffer (b : Buffer) (s : GrblStream) : GrblStream :=
  {| _parse := _parse s; _buffer := b; _lock := _lock s;
     listeners := listeners s; calls := calls s; jobs := jobs s;
     effects := effects s |}.

Definition with_lock (l : Lock) (s : GrblStream) : GrblStream :=
  {| _parse := _parse s; _buffer := _buffer s; _lock := l;
     listeners := listeners s; calls := calls s; jobs := jobs s;
     effects := effects s |}.

Definition with_listeners (ls : list nat) (s : GrblStream) : GrblStream :=
  {| _parse := _parse s; _buffer := _buffer s; _lock := _lock s;
     listeners := ls; calls := calls s; jobs := jobs s;
     effects := effects s |}.

Definition with_calls (cs : list call) (s : GrblStream) : GrblStream :=
  {| _parse := _parse s; _buffer := _buffer s; _lock := _lock s;
     listeners := listeners s; calls := cs; jobs := jobs s;
     effects := effects s |}.

Definition enqueue (j : job) (s : GrblStream) : GrblStream :=
  {| _parse := _parse s; _buffer := _buffer s; _lock := _lock s;
     listeners := listeners s; calls := calls s; jobs := jobs s ++ [j];
     effects := effects s |}.

Definition perform (e : effect) (s : GrblStream) : GrblStream :=
  {| _parse := _parse s; _buffer := _buffer s; _lock := _lock s;
     listeners := listeners s; calls := calls s; jobs := jobs s;
     effects := effects s ++ [e] |}.

(** The stream that [new GrblStream()] makes. *)
Definition constructor : GrblStream :=
  {| _parse := onversion; _buffer := [];
     _lock := {| locked := true; waiting := [] |};
     listeners := []; calls := []; jobs := []; effects := [] |}.

(** Modelled from the spec: [this._lock()] of the same package, for the
    call [id]; the call goes on at once when the lock is free and waits in
    line otherwise. *)
Definition acquire (id : nat) (s : GrblStream) : GrblStream :=
  if locked (_lock s)
  then with_lock {| locked := true; waiting := waiting (_lock s) ++ [id] |} s
  else enqueue (lock_then id)
         (with_lock {| locked := true; waiting := waiting (_lock s) |} s).

(** Modelled from the spec: [release()] of the same package; the lock goes
    to the first in line, and is free when nobody waits.  It is a plain
    function that whoever has it may call. *)
Definition release (s : GrblStream) : GrblStream :=
  match waiting (_lock s) with
  | [] => with_lock {| locked := false; waiting := [] |} s
  | id :: rest =>
      enqueue (lock_then id) (with_lock {| locked := true; waiting := rest |} s)
  end.

(** [resolve] and [reject] of the promise of [_ok]: the first of them
    settles the promise and wakes the operation, the later ones do
    nothing. *)
Definition settle (id : nat) (r : outcome (list string)) (s : GrblStream) : GrblStream :=
  match calls s !! id with
  | Some c =>
      match ok_promise c with
      | None =>
          enqueue (ok_then id)
            (with_calls
               (<[id := {| request_of := request_of c; ok_lines := ok_lines c;
                           ok_promise := Some r; returned := returned c |}]>
                  (calls s)) s)
      | Some _ => s
      end
  | None => s
  end.

(** The listener [onmessage] that [_ok] installs for the call [id]. *)
Definition ok_onmessage `{Host} (id : nat) (data : string) (s : GrblStream) : GrblStream :=
  match calls s !! id with
  | Some c =>
      if String.eqb data "ok" then
        let s' := settle id (inr (ok_lines c)) s in
        with_listeners (List.filter (fun l => negb (Nat.eqb l id)) (listeners s')) s'
      else if JsString.startsWith "error:" data then
        settle id (inl (fromCode (JsString.slice_from 6 data))) s
      else
        with_calls
          (<[id := {| request_of := request_of c; ok_lines := ok_lines c ++ [data];
                      ok_promise := ok_promise c; returned := returned c |}]>
             (calls s)) s
  | None => s
  end.

(** The listeners [ids] called with [data], one after the other. *)
Definition call_listeners `{Host} (data : string) (ids : list nat) (s : GrblStream) : GrblStream :=
  fold_left (fun s' id => ok_onmessage id data s') ids s.

(** [this.emit('message', data)]: the listeners that are subscribed when
    the event is emitted are called, in the order they subscribed; one that
    unsubscribes during the event is still called for it. *)
Definition emit_message_event `{Host} (data : string) (s : GrblStream) : GrblStream :=
  call_listeners data (listeners s) (perform (emit_message data) s).

(** The line feed that [command] appends. *)
Definition LF : string := String "010" EmptyString.

Definition run_job `{Host} (j : job) (s : GrblStream) : GrblStream :=
  match j with
  | header_then data =>
      release (with_parse onmessage (emit_message_event data s))
  | lock_then id =>
      match calls s !! id with
      | Some c =>
          let cmd := request_text (request_of c) in
          let s' := perform (emit_command cmd) (perform (push (cmd +:+ LF)) s) in
          with_listeners (listeners s' ++ [id]) s'
      | None => s
      end
  | ok_then id =>
      match calls s !! id with
      | Some c =>
          match ok_promise c with
          | Some r =>
              let s' := release s in
              with_calls
                (<[id := {| request_of := request_of c; ok_lines := ok_lines c;
                            ok_promise := ok_promise c;
                            returned := Some (and_then r (decode (request_of c))) |}]>
                   (calls s')) s'
          | None => s
          end
      | None => s
      end
  end.

(** How a synchronous piece of code ends. *)
Inductive completion := normal | throw_TypeError.

(** [this._parse(data)] *)
Definition parse_line `{Host} (data : string) (s : GrblStream) : GrblStream * completion :=
  match _parse s with
  | onversion =>
      match match_version data with
      | None =>
          (perform
             (destroy
                (ProtocolError "Expected version format Grbl <version> ['$' for help]"
                   (Some data))) s,
           throw_TypeError)
      | Some version =>
          (with_parse onheader (perform (emit_version version) s), normal)
      end
  | onheader => (enqueue (header_then data) s, normal)
  | onmessage => (emit_message_event data s, normal)
  end.

(** The calls of [this._parse] in the loop of [_write], up to the first
    that throws. *)
Fixpoint dispatch `{Host} (lines : list string) (s : GrblStream) : GrblStream * completion :=
  match lines with
  | [] => (s, normal)
  | data :: lines' =>
      match parse_line data s with
      | (s', normal) => dispatch lines' s'
      | (s', throw_TypeError) => (s', throw_TypeError)
      end
  end.

(** [_write].  The cuts of the loop depend on the buffer alone, so the
    lines are cut first ([frame]) and dispatched next; [this._buffer] is
    assigned after the loop, hence not when a call of [this._parse]
    threw. *)
Definition _write `{Host} (data : Buffer) (s : GrblStream) : GrblStream * completion :=
  let '(lines, rest) := frame (_buffer s) data in
  match dispatch lines s with
  | (s', normal) => (with_buffer rest s', normal)
  | (s', throw_TypeError) => (s', throw_TypeError)
  end.

(** A call of an operation: up to its first [await], [this._lock()]. *)
Definition call_operation (r : request) (s : GrblStream) : GrblStream :=
  acquire (length (calls s))
    (with_calls
       (calls s ++ [{| request_of := r; ok_lines := []; ok_promise := None;
                       returned := None |}]) s).

(** What happens to a stream, one piece of code that runs to its end at a
    time: an operation is called, a chunk arrives, or the next waiting
    callback runs. *)
Inductive action :=
| invoke (r : request)
| write (data : Buffer)
| tick.

Definition step `{Host} (s : GrblStream) (a : action) : GrblStream :=
  match a with
  | invoke r => call_operation r s
  | write data => (_write data s).1
  | tick =>
      match jobs s with
      | [] => s
      | j :: js =>
          run_job j
            {| _parse := _parse s; _buffer := _buffer s; _lock := _lock s;
               listeners := listeners s; calls := calls s; jobs := js;
               effects := effects s |}
      end
  end.

Definition run `{Host} (actions : list action) (s : GrblStream) : GrblStream :=
  fold_left step actions s.

(** The chunks pushed to the readable side, in order. *)
Definition pushed (s : GrblStream) : list string :=
  omap (fun e => match e with push chunk => Some chunk | _ => None end) (effects s).

Definition CRLF : string := String "013" (String "010" EmptyString).


(** ** The grammars of the lines, in words

    What the regular expressions of the source accept, stated on the line
    itself; [match_version_banner] and [match_setting_line] below show that
    the matchers above accept exactly these. *)

(** The first character of [s], if any, is not in the class [f]. *)
Definition stops (f : ascii -> bool) (s : string) : Prop :=
  match s with
  | EmptyString => True
  | String c _ => f c = false
  end.

(** [data] is [Grbl <digits>.<digits><letter> ['$' for help]] and [version]
    is the part between the two spaces. *)
Definition banner (data version : string) : Prop :=
  exists major minor letter,
    data = "Grbl " +:+ version +:+ " ['$' for help]"
    /\ version = major +:+ "." +:+ minor +:+ String letter EmptyString
    /\ major <> EmptyString /\ minor <> EmptyString
    /\ JsString.all JsString.is_digit major = true
    /\ JsString.all JsString.is_digit minor = true
    /\ JsString.is_letter letter = true.

(** [line] begins with [$<code>=<value>]: the code is not empty and has no
    [=], the value has no space and runs to the first space or to the end
    of the line. *)
Definition setting_line (line code value : string) : Prop :=
  exists rest,
    line = "$" +:+ code +:+ "=" +:+ value +:+ rest
    /\ code <> EmptyString
    /\ JsString.all (fun c => negb (Ascii.eqb c "=")) code = true
    /\ JsString.all (fun c => negb (Ascii.eqb c " ")) value = true
    /\ stops (fun c => negb (Ascii.eqb c " ")) rest.

(** [line] is wrapped in [<...>]. *)
Definition wrapped (line : string) : Prop :=
  exists inner, line = "<" +:+ inner +:+ ">".

(** The key of a segment of a status report: what comes before the first
    [:] or [,]. *)
Definition segment_key (segment : string) : option string :=
  head (JsString.split (fun ch => Ascii.eqb ch ":" || Ascii.eqb ch ",") segment).

Definition recognized_keys : list string := ["MPos"; "WCO"; "Bf"; "FS"; "Pn"; "Ov"].

(** [line] is one of the two terminal markers of a response. *)
Definition terminal (line : string) : bool :=
  String.eqb line "ok" || JsString.startsWith "error:" line.




(** ** A host and inputs for the examples *)

(** Two rows of each catalog, with the columns that the source reads. *)
Definition sample_host : Host :=
  {| ERROR_CODES :=
       [ {[ "Error Code" := "1";
            "Error Message" := "Expected command letter";
            "Error Description" := "G-code words consist of a letter and a value. Letter was not found." ]};
         {[ "Error Code" := "9";
            "Error Message" := "G-code lock";
            "Error Description" := "G-code commands are locked out during alarm or jog state." ]} ];
     SETTING_CODES :=
       [ {[ "Code" := "0";
            "Setting" := "Step pulse time";
            "Units" := "microseconds";
            "Setting Description" := "Sets time length per step. Minimum 3usec." ]};
         {[ "Code" := "1";
            "Setting" := "Step idle delay";
            "Units" := "milliseconds";
            "Setting Description" := "Sets a short hold delay when stopping." ]} ];
     Number_toString := fun _ => "1e+21" |}.

(** A line as the controller sends it. *)
Definition sent (line : string) : Buffer := Buf.from (line +:+ CRLF).

Definition version_banner : string := "Grbl 1.1f ['$' for help]".
Definition unlock_notice : string := "[MSG:'$H'|'$X' to unlock]".

(** A stream after the two boot lines, each in its own chunk. *)
Definition booted : GrblStream :=
  run (H := sample_host) [write (sent version_banner); write (sent unlock_notice); tick]
    constructor.

(** [|q|], as [toFixed] takes it. *)
Definition magnitude (q : Q) : Q := if Qle_bool 0 q then q else (- q)%Q.


(** ** Predicates on the calls of a stream *)

(** The lines that a listener has collected, and the lines that its
    promise was resolved with, hold no terminal marker. *)
Definition marker_free (c : call) : Prop :=
  Forall (fun line => terminal line = false) (ok_lines c)
  /\ forall lines, ok_promise c = Some (inr lines) ->
       Forall (fun line => terminal line = false) lines.

(** The promise of the [_ok] of the call [id] is pending, or was rejected
    with [err]. *)
Definition pending (id : nat) (s : GrblStream) : Prop :=
  exists c, calls s !! id = Some c /\ ok_promise c = None.

Definition rejected (err : GrblError) (id : nat) (s : GrblStream) : Prop :=
  exists c, calls s !! id = Some c /\ ok_promise c = Some (inl err).

(** ** Further predicates and observations *)

(** A line that the framer hands on as it is: not empty, and without the
    delimiter among its bytes. *)
Definition clean_line (line : string) : Prop :=
  line <> "" /\ Buf.indexOf DELIMETER (Buf.from line) = None.

(** The bytes of a sequence of lines, each with the delimiter after it. *)
Definition encode_lines (lines : list string) : Buffer := concat (map sent lines).

(** How far the boot has come. *)
Definition rank (p : interpreter) : nat :=
  match p with
  | onversion => 0
  | onheader => 1
  | onmessage => 2
  end.

(** The [version] events and the [message] events emitted so far. *)
Definition versions (s : GrblStream) : list string :=
  omap (fun e => match e with emit_version v => Some v | _ => None end) (effects s).

Definition messages (s : GrblStream) : list string :=
  omap (fun e => match e with emit_message data => Some data | _ => None end) (effects s).

(** A stream in the steady state with nothing going on: the boot is over,
    no partial line is buffered, the lock is free, nobody listens and no
    callback waits. *)
Definition idle (s : GrblStream) : Prop :=
  _parse s = onmessage /\ _buffer s = []
  /\ _lock s = {| locked := false; waiting := [] |}
  /\ listeners s = [] /\ jobs s = [].

(** The [version] events among some effects. *)
Definition version_events (es : list effect) : list string :=
  omap (fun e => match e with emit_version v => Some v | _ => None end) es.

(** A stream that has not delivered a line as a [message] yet: the
    constructor still holds the lock, nobody listens, nothing was pushed,
    and the only callbacks that wait are those of [onheader]. *)
Definition before_first_message (s : GrblStream) : Prop :=
  locked (_lock s) = true /\ listeners s = [] /\ pushed s = []
  /\ Forall (fun j => exists data, j = header_then data) (jobs s)
  /\ _parse s <> onmessage.

#[global] Instance interpreter_eq_dec : EqDecision interpreter.
Proof. solve_decision. Defined.

(** The stream with the callbacks [js] left to run: what [step] gives to
    the callback that it runs. *)
Definition with_jobs (js : list job) (s : GrblStream) : GrblStream :=
  {| _parse := _parse s; _buffer := _buffer s; _lock := _lock s;
     listeners := listeners s; calls := calls s; jobs := js;
     effects := effects s |}.

(** The record of a call that was just made. *)
Definition fresh_call (r : request) : call :=
  {| request_of := r; ok_lines := []; ok_promise := None; returned := None |}.

(** What an operation writes: its text and a line feed. *)
Definition wire_text (c : call) : string := request_text (request_of c) +:+ LF.

(** A status report with the state alone. *)
Definition state_only (state : option string) : MachineStatus :=
  {| state := state; machinePosition := None; workCoordinateOffset := None;
     buffer := None; feedAndSpeed := None; pinState := None;
     overrideValues := None |}.

(** The requests of the calls made so far, in order. *)
Definition requests (s : GrblStream) : list request := map request_of (calls s).

(** * Theorems *)

(** ** Strings *)

Lemma app_String a s t : String a s +:+ t = String a (s +:+ t).
Proof. reflexivity. Qed.

Lemma app_assoc_s (s t u : string) : (s +:+ t) +:+ u = s +:+ (t +:+ u).
Proof. induction s as [|a s IH]; simpl; [done|]. by rewrite !app_String, IH. Qed.

Lemma app_empty_l (s : string) : "" +:+ s = s.
Proof. reflexivity. Qed.

Lemma startsWith_app p r : JsString.startsWith p (p +:+ r) = true.
Proof. induction p as [|a p IH]; [done|]. simpl. by rewrite Ascii.eqb_refl. Qed.

Lemma startsWith_inv p s :
  JsString.startsWith p s = true -> s = p +:+ JsString.slice_from (String.length p) s.
Proof.
  revert s. induction p as [|a p IH]; intros [|b s]; simpl; try done.
  destruct (Ascii.eqb a b) eqn:E; [|done]. apply Ascii.eqb_eq in E as ->.
  intros H%IH. rewrite app_String. by f_equal.
Qed.

Lemma slice_from_app p r : JsString.slice_from (String.length p) (p +:+ r) = r.
Proof. induction p as [|a p IH]; [done|]. exact IH. Qed.

Lemma all_String f a s :
  JsString.all f (String a s) = f a && JsString.all f s.
Proof. reflexivity. Qed.

Lemma span_spec f s p r :
  JsString.span f s = (p, r) ->
  s = p +:+ r /\ JsString.all f p = true /\ stops f r.
Proof.
  revert p r. induction s as [|a s IH]; intros p r; simpl.
  - by intros [= <- <-].
  - destruct (f a) eqn:E.
    + destruct (JsString.span f s) as [p' r'] eqn:E'. intros [= <- <-].
      destruct (IH _ _ eq_refl) as (-> & Hall & Hstop).
      rewrite all_String, E, Hall. done.
    + by intros [= <- <-].
Qed.

Lemma span_app f p r :
  JsString.all f p = true -> stops f r -> JsString.span f (p +:+ r) = (p, r).
Proof.
  induction p as [|a p IH]; intros Hall Hstop.
  - destruct r as [|c r]; simpl in *; [done|]. by rewrite Hstop.
  - rewrite all_String in Hall. apply andb_true_iff in Hall as [Ha Hall].
    rewrite app_String. simpl. by rewrite Ha, IH.
Qed.

Lemma letter_no_digit c : JsString.is_letter c = true -> JsString.is_digit c = false.
Proof.
  unfold JsString.is_letter, JsString.is_digit. generalize (nat_of_ascii c). intros n.
  rewrite orb_true_iff, !andb_true_iff, andb_false_iff, !Nat.leb_le, !Nat.leb_gt. lia.
Qed.

(** The matcher of [onversion] accepts the banners and nothing else, and
    its group is the version. *)
Lemma match_version_banner data version :
  match_version data = Some version <-> banner data version.
Proof.
  unfold match_version, banner. split.
  - destruct (JsString.startsWith "Grbl " data) eqn:Hp; [|done].
    apply startsWith_inv in Hp. change (String.length "Grbl ") with 5%nat in Hp.
    revert Hp. generalize (JsString.slice_from 5 data) as r0. intros r0 Hp.
    destruct (JsString.span JsString.is_digit r0) as [major r] eqn:E1.
    apply span_spec in E1 as (-> & Hmajor & _).
    destruct major as [|m0 major]; [done|].
    destruct r as [|c r]; [done|].
    destruct (Ascii.eqb_spec c "."); [subst c|by destruct c as [[] [] [] [] [] [] [] []]].
    destruct (JsString.span JsString.is_digit r) as [minor r'] eqn:E2.
    apply span_spec in E2 as (-> & Hminor & _).
    destruct minor as [|n0 minor]; [done|].
    destruct r' as [|letter tail]; [done|].
    destruct (JsString.is_letter letter) eqn:Hl; [|done]. simpl.
    destruct (String.eqb_spec tail " ['$' for help]") as [->|]; [|done].
    intros [= <-]. exists (String m0 major), (String n0 minor), letter.
    split_and!; try done. rewrite Hp, !app_assoc_s. reflexivity.
  - intros (major & minor & letter & -> & -> & Hmaj & Hmin & Hdmaj & Hdmin & Hl).
    rewrite startsWith_app.
    change 5 with (String.length "Grbl "). rewrite slice_from_app.
    rewrite !app_assoc_s.
    rewrite (span_app _ major) by done.
    destruct major as [|m0 major]; [done|].
    rewrite (app_String "." ""), app_empty_l.
    rewrite (span_app _ minor) by (try done; simpl; by apply letter_no_digit).
    destruct minor as [|n0 minor]; [done|].
    rewrite (app_String letter ""), app_empty_l, Hl, String.eqb_refl. done.
Qed.

(** The matcher of [settings] accepts the lines that begin with
    [$<code>=<value>] and nothing else, and its groups are the code and the
    value. *)
Lemma match_setting_line line code value :
  match_setting line = Some (code, value) <-> setting_line line code value.
Proof.
  unfold match_setting, setting_line. split.
  - destruct line as [|d r]; [done|].
    destruct (Ascii.eqb_spec d "$"); [subst d|by destruct d as [[] [] [] [] [] [] [] []]].
    destruct (JsString.span _ r) as [code' r'] eqn:E1.
    apply span_spec in E1 as (-> & Hcode & _).
    destruct code' as [|c0 code']; [done|].
    destruct r' as [|e r'']; [done|].
    destruct (Ascii.eqb_spec e "="); [subst e|by destruct e as [[] [] [] [] [] [] [] []]].
    destruct (JsString.span _ r'') as [value' rest] eqn:E2.
    apply span_spec in E2 as (-> & Hvalue & Hstop).
    intros [= <- <-]. exists rest. split_and!; try done.
  - intros (rest & -> & Hne & Hcode & Hvalue & Hstop).
    rewrite (app_String "$" ""), app_empty_l.
    rewrite (span_app _ code) by done.
    destruct code as [|c0 code]; [done|].
    rewrite (app_String "=" ""), app_empty_l.
    by rewrite (span_app _ value).
Qed.

(** ** The line framer *)

Lemma Buf_startsWith_app needle b d :
  length needle <= length b ->
  Buf.startsWith needle (b ++ d) = Buf.startsWith needle b.
Proof.
  revert b. induction needle as [|a needle IH]; intros [|x b] Hlen; simpl in *; try lia; auto.
  destruct (Byte.eqb a x); auto. apply IH. lia.
Qed.

Lemma Buf_startsWith_length needle b :
  Buf.startsWith needle b = true -> length needle <= length b.
Proof.
  revert b. induction needle as [|a needle IH]; intros [|x b]; simpl; try lia; try discriminate.
  destruct (Byte.eqb a x); try discriminate. intros H%IH. lia.
Qed.

Lemma indexOf_bound needle b p :
  Buf.indexOf needle b = Some p -> p + length needle <= length b.
Proof.
  revert p. induction b as [|x b IH]; intros p; simpl.
  - destruct (Buf.startsWith needle []) eqn:E; [|discriminate].
    intros [= <-]. apply Buf_startsWith_length in E. simpl in *; lia.
  - destruct (Buf.startsWith needle (x :: b)) eqn:E.
    + intros [= <-]. apply Buf_startsWith_length in E. simpl in *; lia.
    + destruct (Buf.indexOf needle b) as [q|]; simpl; [|discriminate].
      intros [= <-]. specialize (IH q eq_refl). simpl. lia.
Qed.

Lemma indexOf_app needle b d p :
  Buf.indexOf needle b = Some p -> Buf.indexOf needle (b ++ d) = Some p.
Proof.
  revert p. induction b as [|x b IH]; intros p Hp.
  - pose proof (indexOf_bound _ _ _ Hp) as Hb. simpl in Hb.
    destruct needle; simpl in *; [|lia].
    destruct d; simpl; congruence.
  - pose proof (indexOf_bound _ _ _ Hp) as Hb.
    simpl in Hp. change ((x :: b) ++ d) with (x :: (b ++ d)).
    cbn [Buf.indexOf]. change (x :: b ++ d) with ((x :: b) ++ d).
    rewrite Buf_startsWith_app by lia.
    destruct (Buf.startsWith needle (x :: b)); [done|].
    destruct (Buf.indexOf needle b) as [q|]; simpl in *; [|discriminate].
    rewrite (IH q eq_refl). done.
Qed.

Lemma write_loop_S f b :
  write_loop (S f) b =
    match Buf.indexOf DELIMETER b with
    | None => ([], b)
    | Some position =>
        let '(lines, rest) := write_loop f (drop (position + 2) b) in
        (match take position b with
         | [] => lines
         | _ :: _ => Buf.toString (take position b) :: lines
         end, rest)
    end.
Proof. reflexivity. Qed.

Lemma write_loop_fuel f1 f2 b :
  length b <= f1 -> length b <= f2 -> write_loop f1 b = write_loop f2 b.
Proof.
  revert f2 b. induction f1 as [|f1 IH]; intros f2 b H1 H2.
  - destruct b; simpl in H1; [|lia]. destruct f2; reflexivity.
  - destruct f2 as [|f2].
    + destruct b; simpl in H2; [|lia]. reflexivity.
    + rewrite !write_loop_S. destruct (Buf.indexOf DELIMETER b) as [p|] eqn:E; [|done].
      apply indexOf_bound in E. simpl in E.
      rewrite (IH f2); [done | |]; rewrite length_drop; lia.
Qed.

Lemma write_loop_app f b d lines rest :
  length b <= f ->
  write_loop f b = (lines, rest) ->
  forall f', length (b ++ d) <= f' ->
  write_loop f' (b ++ d) =
    let '(lines', rest') := write_loop (length (rest ++ d)) (rest ++ d) in
    (lines ++ lines', rest').
Proof.
  revert b lines rest. induction f as [|f IH]; intros b lines rest Hf Hloop f' Hf'.
  - destruct b; simpl in Hf; [|lia]. simpl in Hloop. injection Hloop as <- <-.
    simpl. rewrite (write_loop_fuel f' (length d)) by (simpl in *; lia).
    by destruct (write_loop _ _).
  - rewrite write_loop_S in Hloop. destruct (Buf.indexOf DELIMETER b) as [p|] eqn:E.
    + pose proof (indexOf_bound _ _ _ E) as Hb. simpl in Hb.
      destruct (write_loop f (drop (p + 2) b)) as [ls1 r1] eqn:E1.
      injection Hloop as <- <-.
      destruct f' as [|f']; [rewrite length_app in Hf'; lia|].
      rewrite write_loop_S, (indexOf_app _ _ d _ E).
      rewrite take_app_le by lia. rewrite drop_app_le by lia.
      assert (length (drop (p + 2) b) <= f) as Hd by (rewrite length_drop; lia).
      assert (length (drop (p + 2) b ++ d) <= f') as Hd'.
      { rewrite length_app, length_drop. rewrite length_app in Hf'. lia. }
      rewrite (IH _ _ _ Hd E1 f' Hd').
      destruct (write_loop _ (r1 ++ d)) as [ls2 r2].
      by destruct (take p b).
    + injection Hloop as <- <-.
      rewrite (write_loop_fuel f' (length (b ++ d))) by lia.
      by destruct (write_loop _ _).
Qed.

Lemma frame_app _buffer c d :
  frame _buffer (c ++ d) =
    let '(lines, rest) := frame _buffer c in
    let '(lines', rest') := frame rest d in
    (lines ++ lines', rest').
Proof.
  unfold frame. destruct (write_loop _ (_buffer ++ c)) as [lines rest] eqn:E.
  rewrite (assoc_L (++)).
  by rewrite (write_loop_app _ _ d _ _ (le_n _) E).
Qed.

Lemma write_loop_rest f b :
  length b <= f -> Buf.indexOf DELIMETER (write_loop f b).2 = None.
Proof.
  revert b. induction f as [|f IH]; intros b Hf.
  - destruct b; simpl in Hf; [|lia]. reflexivity.
  - rewrite write_loop_S. destruct (Buf.indexOf DELIMETER b) as [p|] eqn:E; [|done].
    apply indexOf_bound in E. simpl in E.
    specialize (IH (drop (p + 2) b)).
    destruct (write_loop f _) as [ls r]. simpl in *. apply IH.
    rewrite length_drop. lia.
Qed.

Lemma frame_nothing b : Buf.indexOf DELIMETER b = None -> frame b [] = ([], b).
Proof.
  intros E. unfold frame. rewrite app_nil_r.
  destruct (length b); simpl; by rewrite ?E.
Qed.

Lemma feed_frame b chunks :
  Buf.indexOf DELIMETER b = None -> feed b chunks = frame b (concat chunks).
Proof.
  revert b. induction chunks as [|c chunks IH]; intros b Hb; simpl.
  - by rewrite frame_nothing.
  - rewrite frame_app. destruct (frame b c) as [lines rest] eqn:E.
    rewrite IH; [done|].
    unfold frame in E. pose proof (write_loop_rest (length (b ++ c)) (b ++ c) (le_n _)) as H.
    by rewrite E in H.
Qed.

(** C5.  However a sequence of bytes is cut into chunks, the calls of
    [_write], one per chunk, starting with the empty buffer of the
    constructor, hand the same lines in the same order to [this._parse] as
    one call with the whole sequence, and leave the same bytes in
    [this._buffer]. *)
Theorem rechunking_preserves_lines (chunks : list Buffer) :
  feed [] chunks = feed [] [concat chunks].
Proof.
  rewrite !feed_frame by reflexivity. simpl. by rewrite app_nil_r.
Qed.

(** ** The boot interpreters *)

(** C3.  While [this._parse] is [onversion], a line that is no banner
    destroys the stream with a [ProtocolError] that carries the line; the
    call of [onversion] then throws, so [this._parse] stays [onversion],
    no [version] event is emitted, and the lines after it in the same chunk
    are not dispatched. *)
Theorem malformed_banner_is_fatal `{Host} (s : GrblStream) (data : string) (lines : list string) :
  _parse s = onversion ->
  ~ (exists version, banner data version) ->
  let failed :=
    perform
      (destroy
         (ProtocolError "Expected version format Grbl <version> ['$' for help]"
            (Some data))) s in
  parse_line data s = (failed, throw_TypeError)
  /\ dispatch (data :: lines) s = (failed, throw_TypeError)
  /\ _parse failed = onversion
  /\ effects failed = effects s ++ [destroy
       (ProtocolError "Expected version format Grbl <version> ['$' for help]"
          (Some data))].
Proof.
  intros Hparse Hno failed.
  assert (match_version data = None) as Hm.
  { destruct (match_version data) as [v|] eqn:E; [|done].
    exfalso. apply Hno. exists v. by apply match_version_banner. }
  assert (parse_line data s = (failed, throw_TypeError)) as Hp.
  { unfold parse_line. by rewrite Hparse, Hm. }
  split_and!; try done.
  cbn [dispatch]. by rewrite Hp.
Qed.

Lemma malformed_banner_is_fatal_witness :
  _parse constructor = onversion
  /\ dispatch (H := sample_host) ["Grbl bogus"; unlock_notice] constructor
     = (perform
          (destroy
             (ProtocolError "Expected version format Grbl <version> ['$' for help]"
                (Some "Grbl bogus"))) constructor, throw_TypeError).
Proof.
  split; [reflexivity|].
  refine (proj1 (proj2
    (malformed_banner_is_fatal (H := sample_host) constructor "Grbl bogus"
       [unlock_notice] eq_refl _))).
  intros [v Hv]. apply match_version_banner in Hv. vm_compute in Hv. discriminate.
Defined.

(** ** [command] *)

Lemma from_app (a b : string) : Buf.from (a +:+ b) = Buf.from a ++ Buf.from b.
Proof.
  unfold Buf.from, list_byte_of_string. rewrite <- map_app. f_equal.
  induction a as [|c a IH]; [done|].
  rewrite app_String. cbn [list_ascii_of_string]. by rewrite IH.
Qed.

(** C1, as the source has it.  When the turn of a call comes, the rest of
    [command] pushes one chunk to the readable side: the text of the
    command and one line feed, the byte [0x0a], not the two bytes of
    [DELIMETER]. *)
Theorem command_pushes_text_and_LF `{Host} (s : GrblStream) (id : nat) (c : call) (rest : list job) :
  calls s !! id = Some c ->
  jobs s = lock_then id :: rest ->
  let cmd := request_text (request_of c) in
  pushed (step s tick) = pushed s ++ [cmd +:+ LF]
  /\ Buf.from (cmd +:+ LF) = Buf.from cmd ++ [x0a].
Proof.
  intros Hc Hj cmd. split; [|by rewrite from_app].
  unfold step. rewrite Hj. unfold run_job. cbn [calls]. rewrite Hc.
  unfold pushed. cbn [effects with_listeners perform].
  rewrite !omap_app. simpl. by rewrite app_nil_r.
Qed.

Lemma command_pushes_text_and_LF_witness :
  let s := call_operation (Command "?") booted in
  jobs s = [lock_then 0]
  /\ map Buf.from (pushed (step (H := sample_host) s tick)) = [[x3f; x0a]].
Proof.
  split; [reflexivity|].
  pose proof (command_pushes_text_and_LF (H := sample_host)
                (call_operation (Command "?") booted) 0
                {| request_of := Command "?"; ok_lines := []; ok_promise := None;
                   returned := None |} [] eq_refl eq_refl) as [Hp Hb].
  rewrite Hp. reflexivity.
Defined.

(** C1, as the claim has it, fails: [command('?')] on a booted stream
    pushes the two bytes [3f 0a], not the three bytes [3f 0d 0a]. *)
Lemma command_does_not_push_CRLF :
  let s := run (H := sample_host) [invoke (Command "?"); tick] booted in
  map Buf.from (pushed s) = [[x3f; x0a]]
  /\ map Buf.from (pushed s) <> [Buf.from "?" ++ DELIMETER].
Proof. split; [reflexivity|]. vm_compute. discriminate. Qed.

(** ** The listener of [_ok] *)

Lemma calls_release (s : GrblStream) : calls (release s) = calls s.
Proof. unfold release. by destruct (waiting (_lock s)). Qed.

Lemma error_line_not_ok (code : string) : String.eqb ("error:" +:+ code) "ok" = false.
Proof. reflexivity. Qed.

Lemma error_line_prefix (code : string) :
  JsString.startsWith "error:" ("error:" +:+ code) = true.
Proof. apply startsWith_app. Qed.

Lemma error_line_code (code : string) :
  JsString.slice_from 6 ("error:" +:+ code) = code.
Proof. reflexivity. Qed.

(** What the listener does to its own call, by the kind of the line. *)
Lemma ok_onmessage_own `{Host} (s : GrblStream) (id : nat) (c : call) (data : string) :
  calls s !! id = Some c ->
  ok_promise c = None ->
  calls (ok_onmessage id data s) !! id =
    Some {| request_of := request_of c;
            ok_lines :=
              if terminal data then ok_lines c else ok_lines c ++ [data];
            ok_promise :=
              if String.eqb data "ok" then Some (inr (ok_lines c))
              else if JsString.startsWith "error:" data
                   then Some (inl (fromCode (JsString.slice_from 6 data)))
                   else None;
            returned := returned c |}.
Proof.
  intros Hc Hp. pose proof (lookup_lt_Some _ _ _ Hc) as Hlt.
  unfold ok_onmessage, settle, terminal. rewrite Hc, Hp.
  destruct (String.eqb data "ok"); cbn [orb].
  - cbn [calls with_listeners enqueue with_calls]. by rewrite list_lookup_insert_eq.
  - destruct (JsString.startsWith "error:" data);
      cbn [calls with_listeners enqueue with_calls];
      by rewrite list_lookup_insert_eq.
Qed.

Lemma marker_free_ok_onmessage `{Host} (id : nat) (data : string) (s : GrblStream) :
  Forall marker_free (calls s) -> Forall marker_free (calls (ok_onmessage id data s)).
Proof.
  intros Hs. unfold ok_onmessage, settle.
  destruct (calls s !! id) as [c|] eqn:Hc; [|done].
  pose proof (Forall_lookup_1 _ _ _ _ Hs Hc) as [Hl Hr].
  destruct (String.eqb data "ok") eqn:Eok; [|destruct (JsString.startsWith "error:" data) eqn:Eerr].
  - destruct (ok_promise c) eqn:Hp; simpl; [done|].
    apply Forall_insert; [done|]. split; simpl; [done|]. by intros ? [= <-].
  - destruct (ok_promise c) eqn:Hp; simpl; [done|].
    apply Forall_insert; [done|]. split; simpl; [done|]. by intros ? [=].
  - simpl. apply Forall_insert; [done|]. split; simpl; [|done].
    apply Forall_app. split; [done|]. constructor; [|done].
    unfold terminal. by rewrite Eok, Eerr.
Qed.

Lemma marker_free_emit `{Host} (data : string) (s : GrblStream) :
  Forall marker_free (calls s) -> Forall marker_free (calls (emit_message_event data s)).
Proof.
  unfold emit_message_event. intros Hs.
  assert (Forall marker_free (calls (perform (emit_message data) s))) as Hs' by done.
  revert Hs'. generalize (perform (emit_message data) s) as s0.
  induction (listeners s) as [|id ids IH]; intros s0 Hs0; [done|].
  simpl. apply IH. by apply marker_free_ok_onmessage.
Qed.

Lemma marker_free_run_job `{Host} (j : job) (s : GrblStream) :
  Forall marker_free (calls s) -> Forall marker_free (calls (run_job j s)).
Proof.
  intros Hs. destruct j as [data|id|id]; simpl.
  - rewrite calls_release. simpl. by apply marker_free_emit.
  - by destruct (calls s !! id).
  - destruct (calls s !! id) as [c|] eqn:Hc; [|done].
    destruct (ok_promise c) eqn:Hp; [|done]. simpl. rewrite calls_release.
    pose proof (Forall_lookup_1 _ _ _ _ Hs Hc) as [Hl Hr].
    apply Forall_insert; [done|]. split; simpl; [done|]. by rewrite <- Hp.
Qed.

Lemma marker_free_dispatch `{Host} (lines : list string) (s : GrblStream) :
  Forall marker_free (calls s) -> Forall marker_free (calls (dispatch lines s).1).
Proof.
  revert s. induction lines as [|data lines IH]; intros s Hs; [done|].
  simpl. destruct (parse_line data s) as [s' k] eqn:E.
  assert (Forall marker_free (calls s')) as Hs'.
  { unfold parse_line in E. destruct (_parse s).
    - destruct (match_version data); by injection E as <- <-.
    - by injection E as <- <-.
    - injection E as <- <-. by apply marker_free_emit. }
  destruct k; [by apply IH|done].
Qed.

Lemma marker_free_step `{Host} (s : GrblStream) (a : action) :
  Forall marker_free (calls s) -> Forall marker_free (calls (step s a)).
Proof.
  intros Hs. destruct a as [r|data|]; simpl.
  - unfold call_operation, acquire. simpl.
    assert (Forall marker_free
              (calls s ++ [{| request_of := r; ok_lines := []; ok_promise := None;
                              returned := None |}])) as Hs'.
    { apply Forall_app. split; [done|]. constructor; [|done]. by split. }
    by destruct (locked (_lock s)).
  - unfold _write. destruct (frame (_buffer s) data) as [lines rest].
    pose proof (marker_free_dispatch lines s Hs) as Hd.
    destruct (dispatch lines s) as [s' []]; done.
  - destruct (jobs s) as [|j js]; [done|]. by apply marker_free_run_job.
Qed.

Lemma marker_free_run `{Host} (actions : list action) (s : GrblStream) :
  Forall marker_free (calls s) -> Forall marker_free (calls (run actions s)).
Proof.
  revert s. induction actions as [|a actions IH]; intros s Hs; [done|].
  simpl. apply IH. by apply marker_free_step.
Qed.

(** C6.  In a stream reached from [new GrblStream()] by any calls, chunks
    and callbacks, the listener of a pending call treats a line as follows:
    [ok] resolves the promise with the lines collected so far, none of
    which is a terminal marker; a line that begins with [error:] rejects
    it; any other line is appended to the lines collected, and the promise
    stays pending. *)
Theorem ok_listener_classifies `{Host} (actions : list action) (id : nat) (c : call) (data : string) :
  let s := run actions constructor in
  calls s !! id = Some c ->
  ok_promise c = None ->
  exists c', calls (ok_onmessage id data s) !! id = Some c'
    /\ if String.eqb data "ok" then
         ok_promise c' = Some (inr (ok_lines c))
         /\ Forall (fun line => terminal line = false) (ok_lines c)
         /\ ~ In "ok" (ok_lines c)
       else if JsString.startsWith "error:" data then
         ok_promise c' = Some (inl (fromCode (JsString.slice_from 6 data)))
         /\ ok_lines c' = ok_lines c
       else
         ok_promise c' = None /\ ok_lines c' = ok_lines c ++ [data].
Proof.
  intros s Hc Hp. eexists. split; [by apply ok_onmessage_own|].
  cbn [ok_promise ok_lines]. unfold terminal.
  destruct (String.eqb data "ok") eqn:Eok; [|by destruct (JsString.startsWith "error:" data)].
  assert (Forall marker_free (calls s)) as Hs.
  { apply marker_free_run. constructor. }
  pose proof (Forall_lookup_1 _ _ _ _ Hs Hc) as [Hl _].
  split_and!; try done.
  intros Hin%list_elem_of_In. rewrite Forall_forall in Hl. by specialize (Hl _ Hin).
Qed.

Lemma ok_listener_classifies_witness :
  let actions :=
    [write (sent version_banner); write (sent unlock_notice); tick;
     invoke Settings; tick; write (sent "$0=10")] in
  let s := run (H := sample_host) actions constructor in
  calls s !! 0%nat
    = Some {| request_of := Settings; ok_lines := ["$0=10"]; ok_promise := None;
              returned := None |}
  /\ exists c', calls (ok_onmessage (H := sample_host) 0 "ok" s) !! 0%nat = Some c'
       /\ ok_promise c' = Some (inr ["$0=10"]).
Proof.
  intros actions s. split; [reflexivity|].
  destruct (ok_listener_classifies (H := sample_host) actions 0
              {| request_of := Settings; ok_lines := ["$0=10"]; ok_promise := None;
                 returned := None |} "ok" eq_refl eq_refl) as (c' & Hc' & Hp & _).
  exists c'. split; [exact Hc'|exact Hp].
Defined.

(** ** The catalog of errors *)

Lemma find_row_none (rows : list row) (column code : string) :
  Forall (fun r => r !! column <> Some code) rows ->
  find_row rows column code = ∅.
Proof.
  unfold find_row. induction 1 as [|r rows Hr _ IH]; [done|].
  simpl. by rewrite bool_decide_eq_false_2.
Qed.

Lemma find_row_first (before after : list row) (r : row) (column code : string) :
  Forall (fun r' => r' !! column <> Some code) before ->
  r !! column = Some code ->
  find_row (before ++ r :: after) column code = r.
Proof.
  unfold find_row. induction 1 as [|r' before Hr' _ IH]; intros Hr; simpl.
  - by rewrite bool_decide_eq_true_2.
  - rewrite bool_decide_eq_false_2 by done. by apply IH.
Qed.

(** C2, as the source has it.  A line [error:<code>] makes the listener of
    a pending call reject its promise with the [CommandError] of
    [fromCode], and the operation ends with that error.  Its code is the
    rest of the line; its message and description are those of the first
    row of the catalog with that code, and are [undefined], not the empty
    string, when the catalog has no such row. *)
Theorem error_line_rejects `{Host} (s : GrblStream) (id : nat) (c : call) (code : string) :
  calls s !! id = Some c ->
  ok_promise c = None ->
  let row := find_row ERROR_CODES "Error Code" code in
  let err := CommandError code (row !! "Error Message") (row !! "Error Description") in
  let s' := run_job (ok_then id) (ok_onmessage id ("error:" +:+ code) s) in
  (exists c', calls s' !! id = Some c'
     /\ ok_promise c' = Some (inl err) /\ returned c' = Some (inl err))
  /\ (Forall (fun r => r !! "Error Code" <> Some code) ERROR_CODES ->
      err = CommandError code None None)
  /\ (forall before r after,
        ERROR_CODES = before ++ r :: after ->
        Forall (fun r' => r' !! "Error Code" <> Some code) before ->
        r !! "Error Code" = Some code ->
        err = CommandError code (r !! "Error Message") (r !! "Error Description")).
Proof.
  intros Hc Hp row err s'. split_and!.
  - pose proof (ok_onmessage_own s id c ("error:" +:+ code) Hc Hp) as Hown.
    rewrite error_line_not_ok, error_line_prefix, error_line_code in Hown.
    pose proof (lookup_lt_Some _ _ _ Hown) as Hlt.
    subst s'. unfold run_job. rewrite Hown. cbn [ok_promise request_of ok_lines returned].
    eexists. split.
    + cbn [calls with_calls]. rewrite calls_release.
      by rewrite list_lookup_insert_eq.
    + done.
  - intros Hnone. subst err row. by rewrite find_row_none.
  - intros before r after Hrows Hbefore Hr. subst err row.
    by rewrite Hrows, find_row_first.
Qed.

Lemma error_line_rejects_witness :
  let s := run (H := sample_host) [invoke killAlarmLock; tick] booted in
  let s' := run_job (H := sample_host) (ok_then 0)
              (ok_onmessage (H := sample_host) 0 "error:9" s) in
  exists c', calls s' !! 0%nat = Some c'
    /\ returned c'
       = Some (inl (CommandError "9" (Some "G-code lock")
                      (Some "G-code commands are locked out during alarm or jog state."))).
Proof.
  intros s s'.
  destruct (error_line_rejects (H := sample_host) s 0
              {| request_of := killAlarmLock; ok_lines := []; ok_promise := None;
                 returned := None |} "9" eq_refl eq_refl) as [(c' & Hc' & _ & Hr) _].
  exists c'. split; [exact Hc'|]. rewrite Hr. vm_compute. reflexivity.
Defined.

(** C2, as the claim has it, fails: the catalog of [sample_host] has no
    row for the code [99], and [command('$X')] answered by [error:99] ends
    with a [CommandError] whose message and description are [undefined],
    which [Error] prints as "undefined"; they are not empty strings. *)
Lemma unknown_code_is_undefined_not_empty :
  let s := run (H := sample_host)
             [invoke (Command "$X"); tick; write (sent "error:99"); tick] booted in
  (returned <$> calls s !! 0%nat) = Some (Some (inl (CommandError "99" None None)))
  /\ (returned <$> calls s !! 0%nat)
     <> Some (Some (inl (CommandError "99" (Some "") (Some ""))))
  /\ error_message (fromCode (H := sample_host) "99")
     = "[undefined] undefined (code: 99)".
Proof. vm_compute. split_and!; [reflexivity|discriminate|reflexivity]. Qed.

(** ** Who listens to [message] *)

Lemma listeners_ok_onmessage_other `{Host} (j : nat) (data : string) (s : GrblStream) :
  String.eqb data "ok" = false ->
  listeners (ok_onmessage j data s) = listeners s.
Proof.
  intros Hd. unfold ok_onmessage, settle. rewrite Hd.
  destruct (calls s !! j) as [c|]; [|done].
  destruct (JsString.startsWith "error:" data); [|done].
  by destruct (ok_promise c).
Qed.

Lemma listeners_settle (id : nat) (r : outcome (list string)) (s : GrblStream) :
  listeners (settle id r s) = listeners s.
Proof.
  unfold settle. destruct (calls s !! id) as [c|]; [|done]. by destruct (ok_promise c).
Qed.

Lemma listeners_ok_onmessage_subset `{Host} (j id : nat) (data : string) (s : GrblStream) :
  In id (listeners (ok_onmessage j data s)) -> In id (listeners s).
Proof.
  destruct (String.eqb data "ok") eqn:Hd.
  - unfold ok_onmessage. rewrite Hd. destruct (calls s !! j) as [c|]; [|done].
    cbn [listeners with_listeners]. rewrite listeners_settle.
    intros Hin%filter_In. tauto.
  - by rewrite listeners_ok_onmessage_other.
Qed.

Lemma listeners_ok_onmessage_ok `{Host} (id : nat) (s : GrblStream) :
  is_Some (calls s !! id) -> ~ In id (listeners (ok_onmessage id "ok" s)).
Proof.
  intros [c Hc]. unfold ok_onmessage. rewrite Hc. cbn [String.eqb Ascii.eqb Bool.eqb].
  cbn [listeners with_listeners]. intros [_ Hin]%filter_In.
  by rewrite Nat.eqb_refl in Hin.
Qed.

Lemma length_calls_ok_onmessage `{Host} (j : nat) (data : string) (s : GrblStream) :
  length (calls (ok_onmessage j data s)) = length (calls s).
Proof.
  unfold ok_onmessage, settle. destruct (calls s !! j) as [c|]; [|done].
  destruct (String.eqb data "ok"); [|destruct (JsString.startsWith "error:" data)];
    try destruct (ok_promise c); cbn [calls with_listeners enqueue with_calls];
    by rewrite ?length_insert.
Qed.

Lemma is_Some_calls_ok_onmessage `{Host} (j id : nat) (data : string) (s : GrblStream) :
  is_Some (calls s !! id) -> is_Some (calls (ok_onmessage j data s) !! id).
Proof. rewrite !lookup_lt_is_Some. by rewrite length_calls_ok_onmessage. Qed.

Lemma call_listeners_subset `{Host} (data : string) (ids : list nat) (id : nat) (s : GrblStream) :
  In id (listeners (call_listeners data ids s)) -> In id (listeners s).
Proof.
  revert s. induction ids as [|j ids IH]; intros s; [done|].
  simpl. intros Hin%IH. by eapply listeners_ok_onmessage_subset.
Qed.

Lemma call_listeners_other `{Host} (data : string) (ids : list nat) (s : GrblStream) :
  String.eqb data "ok" = false ->
  listeners (call_listeners data ids s) = listeners s.
Proof.
  intros Hd. revert s. induction ids as [|j ids IH]; intros s; [done|].
  simpl. by rewrite IH, listeners_ok_onmessage_other.
Qed.

Lemma call_listeners_ok `{Host} (ids : list nat) (id : nat) (s : GrblStream) :
  In id ids -> is_Some (calls s !! id) ->
  ~ In id (listeners (call_listeners "ok" ids s)).
Proof.
  revert s. induction ids as [|j ids IH]; intros s Hin Hc; [done|].
  simpl. destruct (decide (j = id)) as [->|Hne].
  - intros Hin'%call_listeners_subset. by apply listeners_ok_onmessage_ok in Hin'.
  - apply IH; [destruct Hin; done|]. by apply is_Some_calls_ok_onmessage.
Qed.

Lemma pending_ok_onmessage_ne `{Host} (j id : nat) (data : string) (s : GrblStream) :
  j <> id -> pending id s -> pending id (ok_onmessage j data s).
Proof.
  intros Hne (c & Hc & Hp). exists c. split; [|done].
  unfold ok_onmessage, settle. destruct (calls s !! j) as [cj|]; [|done].
  destruct (String.eqb data "ok"); [|destruct (JsString.startsWith "error:" data)];
    try destruct (ok_promise cj); cbn [calls with_listeners enqueue with_calls];
    by rewrite ?list_lookup_insert_ne.
Qed.

Lemma rejected_ok_onmessage `{Host} (err : GrblError) (j id : nat) (data : string) (s : GrblStream) :
  rejected err id s -> rejected err id (ok_onmessage j data s).
Proof.
  intros (c & Hc & Hp). unfold rejected, ok_onmessage, settle.
  destruct (calls s !! j) as [cj|] eqn:Hj; [|by exists c].
  destruct (decide (j = id)) as [->|Hne].
  - assert (cj = c) as -> by congruence. rewrite Hp.
    pose proof (lookup_lt_Some _ _ _ Hc) as Hlt.
    destruct (String.eqb data "ok"); [|destruct (JsString.startsWith "error:" data)];
      cbn [calls with_listeners enqueue with_calls]; try by exists c.
    rewrite list_lookup_insert_eq by done. by eexists.
  - exists c. split; [|done].
    destruct (String.eqb data "ok"); [|destruct (JsString.startsWith "error:" data)];
      try destruct (ok_promise cj); cbn [calls with_listeners enqueue with_calls];
      by rewrite ?list_lookup_insert_ne.
Qed.

Lemma rejected_call_listeners `{Host} (err : GrblError) (data : string) (ids : list nat) (id : nat) (s : GrblStream) :
  rejected err id s -> rejected err id (call_listeners data ids s).
Proof.
  revert s. induction ids as [|j ids IH]; intros s Hs; [done|].
  simpl. by apply IH, rejected_ok_onmessage.
Qed.

Lemma call_listeners_rejects `{Host} (code : string) (ids : list nat) (id : nat) (s : GrblStream) :
  In id ids -> pending id s ->
  rejected (fromCode code) id (call_listeners ("error:" +:+ code) ids s).
Proof.
  revert s. induction ids as [|j ids IH]; intros s Hin Hs; [done|].
  simpl. destruct (decide (j = id)) as [->|Hne].
  - apply rejected_call_listeners. destruct Hs as (c & Hc & Hp).
    eexists. split; [by apply ok_onmessage_own|].
    cbn [ok_promise]. by rewrite error_line_not_ok, error_line_prefix, error_line_code.
  - apply IH; [destruct Hin; done|]. by apply pending_ok_onmessage_ne.
Qed.

Lemma emit_message_event_unfold `{Host} (data : string) (s : GrblStream) :
  emit_message_event data s
  = call_listeners data (listeners s) (perform (emit_message data) s).
Proof. reflexivity. Qed.

Lemma listeners_emit_other `{Host} (data : string) (s : GrblStream) :
  String.eqb data "ok" = false ->
  listeners (emit_message_event data s) = listeners s.
Proof. intros Hd. by rewrite emit_message_event_unfold, call_listeners_other. Qed.

Lemma length_calls_emit `{Host} (data : string) (s : GrblStream) :
  length (calls (emit_message_event data s)) = length (calls s).
Proof.
  rewrite emit_message_event_unfold.
  change (calls s) with (calls (perform (emit_message data) s)).
  generalize (perform (emit_message data) s) as s0.
  induction (listeners s) as [|j ids IH]; intros s0; [done|].
  simpl. by rewrite IH, length_calls_ok_onmessage.
Qed.

Lemma listeners_emit_ok `{Host} (id : nat) (s : GrblStream) :
  In id (listeners s) -> is_Some (calls s !! id) ->
  ~ In id (listeners (emit_message_event "ok" s)).
Proof. intros Hin Hc. rewrite emit_message_event_unfold. by apply call_listeners_ok. Qed.

(** C10, as the source has it.  A line [error:<code>] rejects the promise
    of a pending call and leaves its listener subscribed; the listener
    stays subscribed through the lines that follow as long as none of them
    is [ok], and the next line [ok] removes it, as it removes the listener
    of a call that it resolves. *)
Theorem rejected_listener_stays_until_ok `{Host} (s : GrblStream) (id : nat) (c : call) (code : string) (later : list string) :
  calls s !! id = Some c ->
  ok_promise c = None ->
  In id (listeners s) ->
  Forall (fun data => data <> "ok") later ->
  let s1 := emit_message_event ("error:" +:+ code) s in
  let s2 := fold_left (fun s' data => emit_message_event data s') later s1 in
  rejected (fromCode code) id s1
  /\ In id (listeners s1)
  /\ In id (listeners s2)
  /\ ~ In id (listeners (emit_message_event "ok" s2))
  /\ ~ In id (listeners (emit_message_event "ok" s)).
Proof.
  intros Hc Hp Hin Hlater s1 s2.
  assert (listeners s1 = listeners s) as Hl1
    by (apply listeners_emit_other, error_line_not_ok).
  assert (listeners s2 = listeners s1 /\ length (calls s2) = length (calls s1)) as [Hl2 Hn2].
  { subst s2. generalize s1 as s0. clear -Hlater.
    induction Hlater as [|data later Hd _ IH]; intros s0; [done|].
    simpl. destruct (IH (emit_message_event data s0)) as [-> ->].
    split; [|apply length_calls_emit].
    apply listeners_emit_other. by apply String.eqb_neq. }
  assert (is_Some (calls s !! id)) as Hsome by by exists c.
  split_and!.
  - subst s1. rewrite emit_message_event_unfold.
    apply call_listeners_rejects; [done|]. by exists c.
  - by rewrite Hl1.
  - by rewrite Hl2, Hl1.
  - apply listeners_emit_ok; [by rewrite Hl2, Hl1|].
    apply lookup_lt_is_Some. rewrite Hn2. subst s1. rewrite length_calls_emit.
    by apply lookup_lt_is_Some.
  - by apply listeners_emit_ok.
Qed.

Lemma rejected_listener_stays_until_ok_witness :
  let s := run (H := sample_host) [invoke killAlarmLock; tick] booted in
  let s1 := emit_message_event (H := sample_host) "error:9" s in
  let s2 := emit_message_event (H := sample_host) "<Idle>" s1 in
  In 0%nat (listeners s)
  /\ In 0%nat (listeners s2)
  /\ ~ In 0%nat (listeners (emit_message_event (H := sample_host) "ok" s2)).
Proof.
  intros s s1 s2.
  assert (In 0%nat (listeners s)) as Hin by (left; reflexivity).
  split; [exact Hin|].
  destruct (rejected_listener_stays_until_ok (H := sample_host) s 0
              {| request_of := killAlarmLock; ok_lines := []; ok_promise := None;
                 returned := None |} "9" ["<Idle>"] eq_refl eq_refl Hin)
    as (_ & _ & H2 & H3 & _).
  - constructor; [discriminate|constructor].
  - split; [exact H2|exact H3].
Defined.

(** C10, as the claim has it, fails: the listener of a rejected call does
    not stay for good.  After [error:9] has rejected [killAlarmLock] its
    listener is still subscribed and collects the answer to the next
    command, [status]; the [ok] that ends that answer removes both
    listeners, and the line after it reaches none. *)
Lemma rejected_listener_leaves_at_next_ok :
  let s1 := run (H := sample_host)
              [invoke killAlarmLock; tick; write (sent "error:9"); tick] booted in
  let s2 := run (H := sample_host) [invoke Status; tick; write (sent "<Idle>")] s1 in
  let s3 := run (H := sample_host)
              [write (sent "ok"); tick; write (sent "[MSG:Enabled]")] s2 in
  listeners s1 = [0%nat]
  /\ listeners s2 = [0%nat; 1%nat]
  /\ (ok_lines <$> calls s2 !! 0%nat) = Some ["<Idle>"]
  /\ listeners s3 = []
  /\ (ok_lines <$> calls s3 !! 0%nat) = Some ["<Idle>"].
Proof. vm_compute. by split_and!. Qed.

(** ** The order of commands *)

(** When the two boot lines come in chunks of their own, the commands take
    turns: of two commands called before the boot, the text of the second
    is pushed only after the [ok] that ends the answer to the first. *)
Example commands_take_turns :
  let s1 := run (H := sample_host)
              [invoke (Command "A"); invoke (Command "B");
               write (sent version_banner); write (sent unlock_notice);
               tick; tick] constructor in
  let s2 := run (H := sample_host) [write (sent "ok"); tick; tick] s1 in
  pushed s1 = ["A" +:+ LF]
  /\ pushed s2 = ["A" +:+ LF; "B" +:+ LF]
  /\ (ok_promise <$> calls s2 !! 0%nat) = Some (Some (inr [])).
Proof. vm_compute. by split_and!. Qed.

(** C4 fails on the source.  Every line that [onheader] gets asks for one
    [release()], and [this._parse] stays [onheader] until the first of
    these callbacks has run: when a chunk brings two lines after the
    banner, [onheader] gets both and the lock is released twice.  Of two
    commands called before the boot, the second is then admitted by the
    second release: its text is pushed while the promise of the first is
    still pending. *)
Lemma second_command_pushed_while_first_pending :
  let chunk :=
    sent version_banner ++ sent "[MSG:Check Limits]" ++ sent unlock_notice in
  let called := [invoke (Command "A"); invoke (Command "B")] in
  let s := run (H := sample_host)
             (called ++ [write chunk; tick; tick; tick; tick]) constructor in
  jobs (run (H := sample_host) (called ++ [write chunk]) constructor)
  = [header_then "[MSG:Check Limits]"; header_then unlock_notice]
  /\ waiting (_lock (run (H := sample_host) (called ++ [write chunk; tick]) constructor))
     = [1%nat]
  /\ waiting (_lock (run (H := sample_host) (called ++ [write chunk; tick; tick]) constructor))
     = []
  /\ In ("B" +:+ LF) (pushed s)
  /\ (ok_promise <$> calls s !! 0%nat) = Some None.
Proof. vm_compute. split_and!; auto. Qed.

(** ** The decoders *)

(** C7.  [settings] reads every line of the response as [$<code>=<value>]:
    a line of that form gives its code and value with the name, units and
    description of the first row of the catalog whose [Code] is the code,
    and with all three [undefined] when the catalog has no such row; when
    every line has the form, the result has one setting per line, in
    order; and the first line that has not the form, such as [$0 10],
    makes the operation end with a [ProtocolError] that carries the
    line. *)
Theorem settings_lines `{Host} :
  (forall line code value,
     setting_line line code value ->
     (forall before r after,
        SETTING_CODES = before ++ r :: after ->
        Forall (fun r' => r' !! "Code" <> Some code) before ->
        r !! "Code" = Some code ->
        setting_of_line line
        = inr {| code := code; setting := r !! "Setting"; units := r !! "Units";
                 description := r !! "Setting Description"; value := value |})
     /\ (Forall (fun r => r !! "Code" <> Some code) SETTING_CODES ->
         setting_of_line line
         = inr {| code := code; setting := None; units := None;
                  description := None; value := value |}))
  /\ (forall lines,
        Forall (fun line => exists code value, setting_line line code value) lines ->
        exists settings,
          decode Settings lines = inr (SettingList settings)
          /\ Forall2 (fun line s => setting_line line (code s) (value s)
                                    /\ setting_of_line line = inr s) lines settings)
  /\ (forall before line after,
        Forall (fun line => exists code value, setting_line line code value) before ->
        ~ (exists code value, setting_line line code value) ->
        decode Settings (before ++ line :: after)
        = inl (ProtocolError "Expected settings format $x=val" (Some line)))
  /\ ~ (exists code value, setting_line "$0 10" code value).
Proof.
  assert (forall line code value,
            setting_line line code value ->
            setting_of_line line
            = inr {| code := code;
                     setting := find_row SETTING_CODES "Code" code !! "Setting";
                     units := find_row SETTING_CODES "Code" code !! "Units";
                     description :=
                       find_row SETTING_CODES "Code" code !! "Setting Description";
                     value := value |}) as Hline.
  { intros line code value Hl%match_setting_line. unfold setting_of_line. by rewrite Hl. }
  assert (forall line,
            ~ (exists code value, setting_line line code value) ->
            setting_of_line line
            = inl (ProtocolError "Expected settings format $x=val" (Some line))) as Hbad.
  { intros line Hno. unfold setting_of_line.
    destruct (match_setting line) as [[code value]|] eqn:E; [|done].
    exfalso. apply Hno. exists code, value. by apply match_setting_line. }
  split_and!.
  - intros line code value Hl. split.
    + intros before r after Hrows Hbefore Hr.
      by rewrite (Hline _ _ _ Hl), Hrows, find_row_first.
    + intros Hnone. by rewrite (Hline _ _ _ Hl), find_row_none.
  - intros lines Hall. unfold decode.
    induction Hall as [|line lines (code & value & Hl) _ (settings & Hd & Hs)].
    + exists []. by split.
    + eexists (_ :: settings). cbn [settings_decode]. rewrite (Hline _ _ _ Hl).
      unfold and_then in Hd. destruct (settings_decode lines) as [e|ss]; [done|].
      injection Hd as ->. split; [done|]. constructor; [|done].
      split; [done|by apply Hline].
  - intros before line after Hall Hno. unfold decode.
    induction Hall as [|l before (code & value & Hl) _ IH].
    + cbn [app settings_decode]. by rewrite Hbad.
    + cbn [app settings_decode]. rewrite (Hline _ _ _ Hl).
      unfold and_then in *. by destruct (settings_decode (before ++ line :: after)).
  - intros (code & value & Hl%match_setting_line). vm_compute in Hl. discriminate.
Qed.

Lemma settings_lines_witness :
  decode (H := sample_host) Settings ["$0=10"; "$0 10"; "$1=25"]
  = inl (ProtocolError "Expected settings format $x=val" (Some "$0 10"))
  /\ setting_of_line (H := sample_host) "$1=25"
     = inr {| code := "1"; setting := Some "Step idle delay";
              units := Some "milliseconds";
              description := Some "Sets a short hold delay when stopping.";
              value := "25" |}
  /\ setting_of_line (H := sample_host) "$7=3 (steps)"
     = inr {| code := "7"; setting := None; units := None; description := None;
              value := "3" |}.
Proof.
  split_and!.
  - refine (proj1 (proj2 (proj2 (settings_lines (H := sample_host))))
              ["$0=10"] "$0 10" ["$1=25"] _ _).
    + constructor; [|constructor]. exists "0", "10". apply match_setting_line. reflexivity.
    + exact (proj2 (proj2 (proj2 (settings_lines (H := sample_host))))).
  - refine (proj1 (proj1 (settings_lines (H := sample_host)) "$1=25" "1" "25" _)
              [ {[ "Code" := "0";
                   "Setting" := "Step pulse time";
                   "Units" := "microseconds";
                   "Setting Description" := "Sets time length per step. Minimum 3usec." ]} ]
              {[ "Code" := "1";
                 "Setting" := "Step idle delay";
                 "Units" := "milliseconds";
                 "Setting Description" := "Sets a short hold delay when stopping." ]}
              [] eq_refl _ eq_refl).
    + apply match_setting_line. reflexivity.
    + constructor; [|constructor]. vm_compute. discriminate.
  - refine (proj2 (proj1 (settings_lines (H := sample_host)) "$7=3 (steps)" "7" "3" _) _).
    + apply match_setting_line. reflexivity.
    + repeat constructor; vm_compute; discriminate.
Defined.

Lemma slice_split (n : nat) (s : string) :
  s = JsString.slice_to n s +:+ JsString.slice_from n s.
Proof.
  revert s. induction n as [|n IH]; intros [|a s]; try done.
  simpl. rewrite app_String. f_equal. apply IH.
Qed.

Lemma length_app_s (s t : string) :
  String.length (s +:+ t) = (String.length s + String.length t)%nat.
Proof. induction s as [|a s IH]; [done|]. rewrite app_String. simpl. by rewrite IH. Qed.

Lemma endsWith_inv p s :
  JsString.endsWith p s = true ->
  s = JsString.slice_to (String.length s - String.length p) s +:+ p.
Proof.
  unfold JsString.endsWith. case_decide; [|done].
  intros E%String.eqb_eq.
  rewrite (slice_split (String.length s - String.length p) s) at 1. by rewrite E.
Qed.

Lemma endsWith_app p s : JsString.endsWith p (s +:+ p) = true.
Proof.
  unfold JsString.endsWith. rewrite length_app_s.
  rewrite decide_True by lia.
  replace (String.length s + String.length p - String.length p)%nat
    with (String.length s) by lia.
  rewrite slice_from_app. apply String.eqb_refl.
Qed.

Lemma wrapped_check (line : string) :
  JsString.startsWith "<" line && JsString.endsWith ">" line = true <-> wrapped line.
Proof.
  rewrite andb_true_iff. split.
  - intros [Hs He]. apply endsWith_inv in He.
    destruct line as [|a r]; [done|]. cbn [JsString.startsWith] in Hs.
    destruct (Ascii.eqb_spec "<" a) as [<-|]; [|done].
    remember (String.length (String "<" r) - String.length ">")%nat as n eqn:En.
    destruct n as [|n]; [done|]. simpl in He. injection He as He.
    exists (JsString.slice_to n r). by rewrite He at 1.
  - intros (inner & ->). split; [done|].
    change ("<" +:+ inner +:+ ">") with (String "<" (inner +:+ ">")).
    rewrite <- app_String. apply endsWith_app.
Qed.

(** C8.  [status] on the line of the documentation returns the state and
    the two positions of the claim; a segment whose key is none of [MPos],
    [WCO], [Bf], [FS], [Pn], [Ov] leaves the result as it is, and a line
    wrapped in [<...>] never makes [status] fail; a last line that is not
    wrapped in [<...>] makes it end with a [ProtocolError] that carries the
    line. *)
Theorem status_report :
  (forall before,
     status_decode
       (before ++ ["<Idle|MPos:0.000,1.500,-2.000|WCO:0.000,0.000,0.000>"])
     = inr {| state := Some "Idle";
              machinePosition := Some (Fin 0, Fin (3 # 2), Fin (-2));
              workCoordinateOffset := Some (Fin 0, Fin 0, Fin 0);
              buffer := None; feedAndSpeed := None; pinState := None;
              overrideValues := None |})
  /\ (forall result segment,
        (forall key, segment_key segment = Some key -> ~ In key recognized_keys) ->
        status_segment result segment = result)
  /\ (forall before inner,
        exists result, status_decode (before ++ ["<" +:+ inner +:+ ">"]) = inr result)
  /\ (forall before line,
        ~ wrapped line ->
        status_decode (before ++ [line])
        = inl (ProtocolError "Expected status format" (Some line))).
Proof.
  split_and!.
  - intros before. unfold status_decode. rewrite last_snoc. vm_compute. reflexivity.
  - intros result segment Hkey. unfold status_segment, segment_key in *.
    rewrite head_lookup in Hkey.
    destruct (JsString.split _ segment !! 0%nat) as [key|]; [|by destruct result].
    specialize (Hkey key eq_refl). unfold recognized_keys in Hkey. simpl in Hkey.
    destruct result.
    repeat (rewrite bool_decide_eq_false_2; [|intros [= ->]; tauto]). done.
  - intros before inner. unfold status_decode. rewrite last_snoc.
    assert (wrapped ("<" +:+ inner +:+ ">")) as Hw by by exists inner.
    apply wrapped_check, andb_true_iff in Hw as [-> ->].
    cbn [falsy negb orb String.app String.append]. by eexists.
  - intros before line Hno. unfold status_decode. rewrite last_snoc.
    destruct (falsy (Some line)); [done|].
    destruct (JsString.startsWith "<" line) eqn:Hs; [|done].
    destruct (JsString.endsWith ">" line) eqn:He; [|done].
    exfalso. apply Hno, wrapped_check. by rewrite Hs, He.
Qed.

Lemma status_report_witness :
  status_decode ["Idle|MPos:0.000,1.500,-2.000>"]
  = inl (ProtocolError "Expected status format" (Some "Idle|MPos:0.000,1.500,-2.000>"))
  /\ status_segment
       {| state := Some "Idle"; machinePosition := None;
          workCoordinateOffset := None; buffer := None; feedAndSpeed := None;
          pinState := None; overrideValues := None |} "Ln:5,200"
     = {| state := Some "Idle"; machinePosition := None;
          workCoordinateOffset := None; buffer := None; feedAndSpeed := None;
          pinState := None; overrideValues := None |}.
Proof.
  split.
  - refine (proj2 (proj2 (proj2 status_report)) [] _ _).
    intros Hw%wrapped_check. vm_compute in Hw. discriminate.
  - refine (proj1 (proj2 status_report) _ "Ln:5,200" _).
    intros key [= <-]. vm_compute. intuition discriminate.
Defined.

(** ** [toFixed(1)] *)










(** * Further properties *)

(** ** The line framer, continued *)

Lemma Buf_startsWith_take needle k b :
  Buf.startsWith needle (take k b) = true -> Buf.startsWith needle b = true.
Proof.
  revert k b. induction needle as [|a needle IH]; intros k b; [done|].
  destruct k as [|k], b as [|x b]; cbn [take Buf.startsWith]; try done.
  destruct (Byte.eqb a x); [apply IH|done].
Qed.

Lemma indexOf_take needle b p :
  needle <> [] ->
  Buf.indexOf needle b = Some p -> Buf.indexOf needle (take p b) = None.
Proof.
  intros Hne. revert p. induction b as [|x b IH]; intros p.
  - rewrite take_nil. destruct needle; [done|]. done.
  - cbn [Buf.indexOf]. destruct (Buf.startsWith needle (x :: b)) eqn:E.
    + intros [= <-]. destruct needle; [done|]. done.
    + destruct (Buf.indexOf needle b) as [q|] eqn:Eq; [|done].
      intros [= <-]. cbn [take Buf.indexOf].
      destruct (Buf.startsWith needle (x :: take q b)) eqn:E'.
      * apply (Buf_startsWith_take needle (S q) (x :: b)) in E'. congruence.
      * by rewrite (IH q).
Qed.

Lemma toString_nonempty (x : byte) (b : Buffer) : Buf.toString (x :: b) <> "".
Proof. done. Qed.

Lemma write_loop_clean f b :
  length b <= f ->
  Forall clean_line (write_loop f b).1.
Proof.
  revert b. induction f as [|f IH]; intros b Hf; [by constructor|].
  rewrite write_loop_S. destruct (Buf.indexOf DELIMETER b) as [p|] eqn:E; [|by constructor].
  pose proof (indexOf_bound _ _ _ E) as Hb. simpl in Hb.
  specialize (IH (drop (p + 2) b) ltac:(rewrite length_drop; lia)).
  destruct (write_loop f (drop (p + 2) b)) as [lines rest]. simpl in *.
  pose proof (indexOf_take DELIMETER b p ltac:(done) E) as Ht.
  destruct (take p b) as [|x line] eqn:El; [done|].
  constructor; [|done]. split; [apply toString_nonempty|].
  unfold Buf.from, Buf.toString. by rewrite list_byte_of_string_of_list_byte.
Qed.

Lemma frame_lines_clean_rest (_buffer data : Buffer) :
  Buf.indexOf DELIMETER (frame _buffer data).2 = None.
Proof. unfold frame. by apply write_loop_rest. Qed.

(** X1.  Whatever the buffer and the chunk, every line that [_write]
    hands to [this._parse] is not empty and has no delimiter in it, and
    the bytes kept in [this._buffer] have no delimiter either. *)
Theorem frame_lines_clean (_buffer data : Buffer) :
  Forall clean_line (frame _buffer data).1
  /\ Buf.indexOf DELIMETER (frame _buffer data).2 = None.
Proof.
  unfold frame. split; [by apply write_loop_clean|by apply write_loop_rest].
Qed.

Lemma from_CRLF : Buf.from CRLF = DELIMETER.
Proof. reflexivity. Qed.

Lemma sent_bytes (line : string) : sent line = Buf.from line ++ DELIMETER.
Proof. unfold sent. by rewrite from_app, from_CRLF. Qed.

Lemma indexOf_line (l rest : Buffer) :
  Buf.indexOf DELIMETER l = None ->
  Buf.indexOf DELIMETER (l ++ DELIMETER ++ rest) = Some (length l).
Proof.
  induction l as [|x l IH]; [done|].
  cbn [Buf.indexOf]. destruct (Buf.startsWith DELIMETER (x :: l)) eqn:E; [done|].
  destruct (Buf.indexOf DELIMETER l) as [q|] eqn:Eq; [done|]. intros _.
  change ((x :: l) ++ DELIMETER ++ rest) with (x :: (l ++ DELIMETER ++ rest)).
  assert (Buf.startsWith DELIMETER (x :: (l ++ DELIMETER ++ rest)) = false) as Hs.
  { destruct l as [|y l].
    - unfold DELIMETER. cbn [app Buf.startsWith].
      destruct (Byte.eqb x0d x); [|done]. reflexivity.
    - unfold DELIMETER in *. cbn [app Buf.startsWith] in *. exact E. }
  cbn [Buf.indexOf]. rewrite Hs, IH by done. reflexivity.
Qed.

Lemma frame_encoded (lines : list string) (tail : Buffer) :
  Forall clean_line lines ->
  Buf.indexOf DELIMETER tail = None ->
  frame [] (encode_lines lines ++ tail) = (lines, tail).
Proof.
  intros Hl Ht. unfold frame. rewrite app_nil_l.
  generalize (le_n (length (encode_lines lines ++ tail))).
  generalize (length (encode_lines lines ++ tail)) at 2 3 as f.
  intros f. revert f. induction Hl as [|line lines [Hne Hc] _ IH]; intros f Hf.
  - cbn [encode_lines map concat app] in *. destruct f; [done|].
    rewrite write_loop_S. by rewrite Ht.
  - unfold encode_lines in *. cbn [map concat] in *. rewrite sent_bytes in *.
    rewrite <- !(assoc_L (++)) in *.
    destruct f as [|f]; [rewrite !length_app in Hf; simpl in Hf; lia|].
    rewrite write_loop_S, indexOf_line by done.
    rewrite take_app_length.
    replace (length (Buf.from line) + 2) with (length (Buf.from line ++ DELIMETER))
      by (rewrite length_app; reflexivity).
    rewrite (assoc_L (++)), drop_app_length.
    rewrite IH by (rewrite !length_app in *; simpl in *; lia).
    destruct (Buf.from line) as [|x bytes] eqn:Eb.
    + destruct line; [done|discriminate].
    + rewrite <- Eb. unfold Buf.toString, Buf.from.
      by rewrite string_of_list_byte_of_string.
Qed.



(** ** What the parts of the stream leave alone *)

Lemma settle_keeps (id : nat) (r : outcome (list string)) (s : GrblStream) :
  _parse (settle id r s) = _parse s /\ _buffer (settle id r s) = _buffer s
  /\ _lock (settle id r s) = _lock s /\ effects (settle id r s) = effects s.
Proof.
  unfold settle. destruct (calls s !! id) as [c|]; [|done]. by destruct (ok_promise c).
Qed.

Lemma ok_onmessage_keeps `{Host} (id : nat) (data : string) (s : GrblStream) :
  _parse (ok_onmessage id data s) = _parse s
  /\ _buffer (ok_onmessage id data s) = _buffer s
  /\ _lock (ok_onmessage id data s) = _lock s
  /\ effects (ok_onmessage id data s) = effects s.
Proof.
  unfold ok_onmessage. destruct (calls s !! id) as [c|]; [|done].
  destruct (String.eqb data "ok"); [|destruct (JsString.startsWith "error:" data)];
    cbn [_parse _buffer _lock effects with_listeners with_calls];
    try apply settle_keeps; done.
Qed.

Lemma call_listeners_keeps `{Host} (data : string) (ids : list nat) (s : GrblStream) :
  _parse (call_listeners data ids s) = _parse s
  /\ _buffer (call_listeners data ids s) = _buffer s
  /\ _lock (call_listeners data ids s) = _lock s
  /\ effects (call_listeners data ids s) = effects s.
Proof.
  revert s. induction ids as [|id ids IH]; intros s; [done|].
  change (call_listeners data (id :: ids) s)
    with (call_listeners data ids (ok_onmessage id data s)).
  destruct (IH (ok_onmessage id data s)) as (-> & -> & -> & ->).
  apply ok_onmessage_keeps.
Qed.

Lemma emit_message_event_keeps `{Host} (data : string) (s : GrblStream) :
  _parse (emit_message_event data s) = _parse s
  /\ _buffer (emit_message_event data s) = _buffer s
  /\ _lock (emit_message_event data s) = _lock s
  /\ effects (emit_message_event data s) = effects s ++ [emit_message data].
Proof.
  unfold emit_message_event.
  destruct (call_listeners_keeps data (listeners s) (perform (emit_message data) s))
    as (-> & -> & -> & ->). done.
Qed.

Lemma release_keeps (s : GrblStream) :
  _parse (release s) = _parse s /\ _buffer (release s) = _buffer s
  /\ effects (release s) = effects s.
Proof. unfold release. by destruct (waiting (_lock s)). Qed.

(** What a callback does to the fields that the framer and the boot use. *)
Lemma run_job_keeps `{Host} (j : job) (s : GrblStream) :
  _buffer (run_job j s) = _buffer s
  /\ rank (_parse s) <= rank (_parse (run_job j s))
  /\ (_parse (run_job j s) = onversion -> _parse s = onversion)
  /\ exists extra, effects (run_job j s) = effects s ++ extra
       /\ version_events extra = [].
Proof.
  destruct j as [data|id|id]; cbn [run_job].
  - destruct (release_keeps (with_parse onmessage (emit_message_event data s)))
      as (-> & -> & ->).
    destruct (emit_message_event_keeps data s) as (Hp & Hb & _ & He).
    cbn [_parse _buffer effects with_parse]. rewrite Hb, He.
    split_and!; [done|destruct (_parse s); simpl; lia|done|by eexists].
  - destruct (calls s !! id) as [c|].
    + cbn [_parse _buffer effects with_listeners perform].
      split_and!; [done..|]. rewrite <- (assoc_L (++)). by eexists.
    + split_and!; [done..|]. exists []. by rewrite app_nil_r.
  - destruct (calls s !! id) as [c|]; [destruct (ok_promise c)|].
    + cbn [_parse _buffer effects with_calls].
      destruct (release_keeps s) as (-> & -> & ->).
      split_and!; [done..|]. exists []. by rewrite app_nil_r.
    + split_and!; [done..|]. exists []. by rewrite app_nil_r.
    + split_and!; [done..|]. exists []. by rewrite app_nil_r.
Qed.

Lemma parse_line_keeps `{Host} (data : string) (s : GrblStream) :
  _buffer (parse_line data s).1 = _buffer s
  /\ rank (_parse s) <= rank (_parse (parse_line data s).1)
  /\ exists extra, effects (parse_line data s).1 = effects s ++ extra
       /\ length (version_events extra) <= 1
       /\ (_parse s <> onversion -> version_events extra = [])
       /\ (_parse (parse_line data s).1 = onversion -> version_events extra = []).
Proof.
  unfold parse_line. destruct (_parse s) eqn:Hp.
  - destruct (match_version data) as [v|]; cbn [fst _parse _buffer effects with_parse perform].
    + split_and!; [done|simpl; lia|]. eexists. split_and!; [done|simpl; lia|done..].
    + rewrite Hp. split_and!; [done..|]. eexists. split_and!; [done|simpl; lia|done..].
  - cbn [fst _parse _buffer effects enqueue]. rewrite Hp.
    split_and!; [done..|]. exists []. rewrite app_nil_r. split_and!; [done|simpl; lia|done..].
  - cbn [fst]. destruct (emit_message_event_keeps data s) as (-> & -> & _ & ->).
    rewrite Hp. split_and!; [done..|]. eexists. split_and!; [done|simpl; lia|done..].
Qed.

Lemma version_events_app (es es' : list effect) :
  version_events (es ++ es') = version_events es ++ version_events es'.
Proof. apply omap_app. Qed.

Lemma dispatch_keeps `{Host} (lines : list string) (s : GrblStream) :
  _buffer (dispatch lines s).1 = _buffer s
  /\ rank (_parse s) <= rank (_parse (dispatch lines s).1)
  /\ exists extra, effects (dispatch lines s).1 = effects s ++ extra
       /\ length (version_events extra) <= 1
       /\ (_parse s <> onversion -> version_events extra = [])
       /\ (_parse (dispatch lines s).1 = onversion -> version_events extra = []).
Proof.
  revert s. induction lines as [|data lines IH]; intros s.
  - cbn [dispatch fst]. split_and!; [done..|]. exists []. rewrite app_nil_r.
    split_and!; [done|simpl; lia|done..].
  - cbn [dispatch]. pose proof (parse_line_keeps data s) as Hl.
    destruct (parse_line data s) as [s' []]; cbn [fst] in *; [|exact Hl].
    destruct Hl as (Hb & Hr & extra & He & Hn & Hv & Hv').
    destruct (IH s') as (Hb' & Hr' & extra' & He' & Hn' & Hw & Hw').
    split_and!; [congruence|lia|]. exists (extra ++ extra').
    rewrite He', He, (assoc_L (++)), version_events_app, length_app.
    assert (_parse s' <> onversion -> version_events extra' = []) as Hx by done.
    assert (_parse s' = onversion -> version_events extra = []) as Hy by done.
    destruct (decide (_parse s' = onversion)) as [E|E].
    + rewrite (Hy E). split_and!; [done|simpl; lia| |].
      * intros Hs. destruct (_parse s) eqn:Es; [done| |].
        -- rewrite E in Hr. simpl in Hr. lia.
        -- rewrite E in Hr. simpl in Hr. lia.
      * intros Hd. by rewrite (Hw' Hd).
    + rewrite (Hx E), app_nil_r. split_and!; [done|simpl; lia|done|].
      intros Hd. destruct (_parse s') eqn:Es'; [done| |].
      * rewrite Hd in Hr'. simpl in Hr'. lia.
      * rewrite Hd in Hr'. simpl in Hr'. lia.
Qed.

(** ** The boot, continued *)

Lemma run_snoc `{Host} (actions : list action) (a : action) (s : GrblStream) :
  run (actions ++ [a]) s = step (run actions s) a.
Proof. unfold run. by rewrite fold_left_app. Qed.

Lemma call_operation_keeps (r : request) (s : GrblStream) :
  _parse (call_operation r s) = _parse s
  /\ _buffer (call_operation r s) = _buffer s
  /\ effects (call_operation r s) = effects s
  /\ listeners (call_operation r s) = listeners s.
Proof. unfold call_operation, acquire. by destruct (locked _). Qed.

Lemma write_keeps `{Host} (data : Buffer) (s : GrblStream) :
  (Buf.indexOf DELIMETER (_buffer s) = None ->
   Buf.indexOf DELIMETER (_buffer (_write data s).1) = None)
  /\ rank (_parse s) <= rank (_parse (_write data s).1)
  /\ exists extra, effects (_write data s).1 = effects s ++ extra
       /\ length (version_events extra) <= 1
       /\ (_parse s <> onversion -> version_events extra = [])
       /\ (_parse (_write data s).1 = onversion -> version_events extra = []).
Proof.
  unfold _write. pose proof (frame_lines_clean_rest (_buffer s) data) as Hrest.
  destruct (frame (_buffer s) data) as [lines rest]. cbn [snd] in Hrest.
  pose proof (dispatch_keeps lines s) as (Hb & Hr & He).
  destruct (dispatch lines s) as [s' []]; cbn [fst _buffer _parse effects with_buffer] in *.
  - done.
  - rewrite Hb. done.
Qed.

(** X3.  The boot only goes forward: whatever is called, whatever bytes
    arrive and whichever callbacks run, [this._parse] goes from [onversion]
    to [onheader] to [onmessage] and never back. *)
Theorem boot_never_goes_back `{Host} (actions : list action) (s : GrblStream) :
  rank (_parse s) <= rank (_parse (run actions s)).
Proof.
  revert s. induction actions as [|a actions IH]; intros s; [done|].
  cbn [run fold_left]. etrans; [|apply IH].
  destruct a as [r|data|]; cbn [step].
  - by destruct (call_operation_keeps r s) as (-> & _).
  - apply write_keeps.
  - destruct (jobs s) as [|j js]; [done|].
    exact (proj1 (proj2 (run_job_keeps j (with_jobs js s)))).
Qed.

(** X4.  No stream keeps a delimiter in [this._buffer]: after any calls,
    chunks and callbacks the buffered bytes are the beginning of one line
    that is not complete yet. *)
Theorem buffer_holds_no_delimiter `{Host} (actions : list action) :
  Buf.indexOf DELIMETER (_buffer (run actions constructor)) = None.
Proof.
  induction actions as [|a actions IH] using rev_ind; [done|].
  rewrite run_snoc. destruct a as [r|data|]; cbn [step].
  - by destruct (call_operation_keeps r (run actions constructor)) as (_ & -> & _).
  - by apply write_keeps.
  - destruct (jobs (run actions constructor)) as [|j js]; [done|].
    pose proof (proj1 (run_job_keeps j (with_jobs js (run actions constructor)))) as Hb.
    cbn [with_jobs _buffer] in Hb. unfold with_jobs in Hb. by rewrite Hb.
Qed.

Lemma step_versions `{Host} (s : GrblStream) (a : action) :
  exists extra, effects (step s a) = effects s ++ extra
    /\ length (version_events extra) <= 1
    /\ (_parse s <> onversion -> version_events extra = [])
    /\ (_parse (step s a) = onversion -> version_events extra = [] /\ _parse s = onversion).
Proof.
  destruct a as [r|data|]; cbn [step].
  - destruct (call_operation_keeps r s) as (-> & _ & -> & _).
    exists []. rewrite app_nil_r. split_and!; [done|simpl; lia|done|done].
  - destruct (write_keeps data s) as (_ & Hr & extra & He & Hn & Hv & Hv').
    exists extra. split_and!; [done..|]. intros Hd. split; [by apply Hv'|].
    rewrite Hd in Hr. destruct (_parse s); [done|simpl in Hr; lia..].
  - destruct (jobs s) as [|j js].
    + exists []. rewrite app_nil_r. split_and!; [done|simpl; lia|done|done].
    + destruct (run_job_keeps j (with_jobs js s)) as (_ & _ & Hp & extra & He & Hv).
      unfold with_jobs in *. cbn [_parse effects] in *.
      exists extra. split_and!; [done|rewrite Hv; simpl; lia|done|].
      intros Hd. split; [done|by apply Hp].
Qed.

(** X5.  The [version] event is emitted once at most, and not before
    [this._parse] has left [onversion]. *)
Theorem version_at_most_once `{Host} (actions : list action) :
  let s := run actions constructor in
  length (versions s) <= 1 /\ (_parse s = onversion -> versions s = []).
Proof.
  induction actions as [|a actions IH] using rev_ind; [simpl; split; [lia|done]|].
  rewrite run_snoc. destruct IH as [Hn Hv]. unfold versions in *.
  destruct (step_versions (run actions constructor) a) as (extra & -> & Hx & Hy & Hz).
  fold (version_events (effects (run actions constructor))) in *.
  fold (version_events (effects (run actions constructor) ++ extra)).
  rewrite version_events_app, length_app. split.
  - destruct (decide (_parse (run actions constructor) = onversion)) as [E|E].
    + rewrite (Hv E). simpl. lia.
    + rewrite (Hy E). simpl. lia.
  - intros Hd. destruct (Hz Hd) as [-> E]. by rewrite (Hv E).
Qed.

Lemma dispatch_steady `{Host} (lines : list string) (s : GrblStream) :
  _parse s = onmessage ->
  exists s', dispatch lines s = (s', normal)
    /\ effects s' = effects s ++ map emit_message lines
    /\ _parse s' = onmessage /\ _buffer s' = _buffer s /\ _lock s' = _lock s.
Proof.
  revert s. induction lines as [|data lines IH]; intros s Hp.
  - exists s. cbn [dispatch map]. by rewrite app_nil_r.
  - cbn [dispatch]. unfold parse_line. rewrite Hp.
    destruct (emit_message_event_keeps data s) as (Hp' & Hb & Hl & He).
    destruct (IH (emit_message_event data s)) as (s' & -> & He' & Hp'' & Hb' & Hl');
      [congruence|].
    exists s'. split_and!; [done| |done|congruence|congruence].
    rewrite He', He. cbn [map]. by rewrite <- (assoc_L (++)).
Qed.

(** X6.  In the steady state every line that [_write] cuts is published
    as a [message] event, in the order of arrival and whether or not a
    command is waiting for it; [_write] returns normally and keeps the
    rest of the bytes. *)
Theorem steady_state_publishes_every_line `{Host} (s : GrblStream) (data : Buffer) :
  _parse s = onmessage ->
  exists s', _write data s = (s', normal)
    /\ effects s' = effects s ++ map emit_message (frame (_buffer s) data).1
    /\ _buffer s' = (frame (_buffer s) data).2
    /\ _parse s' = onmessage.
Proof.
  intros Hp. unfold _write. destruct (frame (_buffer s) data) as [lines rest].
  destruct (dispatch_steady lines s Hp) as (s' & -> & He & Hp' & _).
  eexists. split; [done|]. cbn [fst snd effects _buffer _parse with_buffer]. done.
Qed.

Lemma steady_state_publishes_every_line_witness :
  exists s',
    _write (H := sample_host) (sent "[MSG:Enabled]" ++ sent "ok" ++ Buf.from "<Id") booted
    = (s', normal)
    /\ effects s' = effects booted ++ [emit_message "[MSG:Enabled]"; emit_message "ok"]
    /\ _buffer s' = Buf.from "<Id".
Proof.
  destruct (steady_state_publishes_every_line (H := sample_host) booted
              (sent "[MSG:Enabled]" ++ sent "ok" ++ Buf.from "<Id") eq_refl)
    as (s' & Hw & He & Hb & _).
  exists s'. split; [exact Hw|]. split; [exact He|exact Hb].
Defined.

Lemma messages_app (s : GrblStream) (extra : list effect) (s' : GrblStream) :
  effects s' = effects s ++ extra -> messages s' = [] -> messages s = [].
Proof.
  unfold messages. intros -> Hm. rewrite omap_app in Hm.
  by apply app_eq_nil in Hm as [-> _].
Qed.

Lemma before_first_message_parse_line `{Host} (data : string) (s : GrblStream) :
  before_first_message s -> before_first_message (parse_line data s).1.
Proof.
  intros (Hl & Hn & Hp & Hj & Hs). unfold parse_line, before_first_message, pushed in *.
  destruct (_parse s) eqn:E; [destruct (match_version data)| |done];
    cbn [fst _lock listeners effects jobs _parse with_parse perform enqueue];
    rewrite ?omap_app, ?Hp, ?E; split_and!; try done.
  apply Forall_app. split; [done|]. constructor; [by eexists|done].
Qed.

Lemma before_first_message_dispatch `{Host} (lines : list string) (s : GrblStream) :
  before_first_message s -> before_first_message (dispatch lines s).1.
Proof.
  revert s. induction lines as [|data lines IH]; intros s Hs; [done|].
  cbn [dispatch]. pose proof (before_first_message_parse_line data s Hs) as Hs'.
  destruct (parse_line data s) as [s' []]; [by apply IH|done].
Qed.

(** X7.  As long as no line was delivered as a [message], nothing is
    pushed: the operations called before the end of the boot wait, the
    constructor holds the lock and nobody listens.  The first text goes
    out only after the line that follows the banner has been delivered. *)
Theorem nothing_pushed_before_first_message `{Host} (actions : list action) :
  let s := run actions constructor in
  messages s = [] ->
  pushed s = [] /\ locked (_lock s) = true /\ listeners s = [].
Proof.
  cut (messages (run actions constructor) = [] ->
       before_first_message (run actions constructor)).
  { intros Hc s Hm. destruct (Hc Hm) as (? & ? & ? & _). done. }
  induction actions as [|a actions IH] using rev_ind.
  { intros _. unfold before_first_message. cbn. split_and!; done. }
  rewrite run_snoc. intros Hm.
  destruct (step_versions (run actions constructor) a) as (extra & He & _).
  specialize (IH (messages_app _ _ _ He Hm)).
  destruct a as [r|data|]; cbn [step] in *.
  - destruct IH as (Hl & Hn & Hp & Hj & Hs).
    unfold call_operation, acquire, before_first_message, pushed in *.
    cbn [_lock with_calls]. rewrite Hl.
    cbn [_lock listeners effects jobs _parse with_lock with_calls]. done.
  - unfold _write. destruct (frame _ data) as [lines rest].
    pose proof (before_first_message_dispatch lines _ IH) as Hd.
    destruct (dispatch lines (run actions constructor)) as [s' []]; cbn [fst] in *; done.
  - destruct (jobs (run actions constructor)) as [|j js] eqn:Ej; [done|].
    destruct IH as (_ & _ & _ & Hj & _). rewrite Ej in Hj.
    apply Forall_cons in Hj as [[d ->] _]. exfalso.
    cbn [run_job] in Hm. unfold messages in Hm.
    destruct (release_keeps
                (with_parse onmessage
                   (emit_message_event d (with_jobs js (run actions constructor)))))
      as (_ & _ & Hr).
    unfold with_jobs in Hr. rewrite Hr in Hm. cbn [effects with_parse] in Hm.
    destruct (emit_message_event_keeps d (with_jobs js (run actions constructor)))
      as (_ & _ & _ & Hx).
    unfold with_jobs in Hx. rewrite Hx in Hm. rewrite omap_app in Hm.
    by apply app_eq_nil in Hm as [_ Hm].
Qed.

Lemma nothing_pushed_before_first_message_witness :
  let s := run (H := sample_host)
             [invoke Status; write (sent version_banner); invoke Help; tick]
             constructor in
  pushed s = [] /\ locked (_lock s) = true /\ listeners s = [].
Proof.
  exact (nothing_pushed_before_first_message (H := sample_host)
           [invoke Status; write (sent version_banner); invoke Help; tick] eq_refl).
Defined.

(** ** A command from the call to the answer *)

Lemma dispatch_app `{Host} (lines lines' : list string) (s : GrblStream) :
  dispatch (lines ++ lines') s
  = match dispatch lines s with
    | (s', normal) => dispatch lines' s'
    | (s', throw_TypeError) => (s', throw_TypeError)
    end.
Proof.
  revert s. induction lines as [|data lines IH]; intros s; [done|].
  cbn [app dispatch]. destruct (parse_line data s) as [s' []]; [apply IH|done].
Qed.

Lemma terminal_false (data : string) :
  terminal data = false ->
  String.eqb data "ok" = false /\ JsString.startsWith "error:" data = false.
Proof. unfold terminal. by intros ?%orb_false_iff. Qed.

(** The lines of an answer, before its terminal marker, as the only
    listener collects them. *)
Lemma dispatch_collects `{Host} (b : Buffer) (l : Lock) (id : nat) (cs : list call)
    (js : list job) (es : list effect) (c : call) (lines : list string) :
  cs !! id = Some c ->
  ok_promise c = None ->
  Forall (fun line => terminal line = false) lines ->
  dispatch lines
    {| _parse := onmessage; _buffer := b; _lock := l; listeners := [id];
       calls := cs; jobs := js; effects := es |}
  = ({| _parse := onmessage; _buffer := b; _lock := l; listeners := [id];
        calls := <[id := {| request_of := request_of c;
                            ok_lines := ok_lines c ++ lines;
                            ok_promise := None; returned := returned c |}]> cs;
        jobs := js; effects := es ++ map emit_message lines |}, normal).
Proof.
  intros Hc Hp Hl. revert cs es c Hc Hp.
  induction Hl as [|data lines Hd _ IH]; intros cs es c Hc Hp.
  - cbn [dispatch map]. rewrite !app_nil_r. rewrite list_insert_id; [done|].
    rewrite Hc. f_equal. destruct c; simpl in *; by subst.
  - apply terminal_false in Hd as [Hok Herr].
    pose proof (lookup_lt_Some _ _ _ Hc) as Hlt.
    cbn [dispatch]. unfold parse_line. cbn [_parse].
    unfold emit_message_event, call_listeners. cbn [listeners perform fold_left].
    unfold ok_onmessage. cbn [calls perform]. rewrite Hc, Hok, Herr.
    unfold with_calls, perform.
    cbn [_parse _buffer _lock listeners jobs effects calls].
    rewrite (IH _ _ {| request_of := request_of c; ok_lines := ok_lines c ++ [data];
                       ok_promise := ok_promise c; returned := returned c |})
      by (try apply list_lookup_insert_eq; done).
    cbn [request_of ok_lines returned]. rewrite list_insert_insert_eq.
    by rewrite <- !(assoc_L (++)).
Qed.

Lemma encode_lines_alone (lines : list string) :
  Forall clean_line lines -> frame [] (encode_lines lines) = (lines, []).
Proof.
  intros Hl. rewrite <- (app_nil_r (encode_lines lines)). by apply frame_encoded.
Qed.

Ltac state_norm :=
  unfold with_parse, with_buffer, with_lock, with_listeners, with_calls,
    with_jobs, enqueue, perform;
  cbn [_parse _buffer _lock listeners calls jobs effects].

(** The four steps of a command on an idle stream, each on a stream whose
    fields are written out. *)
Lemma step_invoke_idle `{Host} (cs : list call) (es : list effect) (r : request) :
  step {| _parse := onmessage; _buffer := [];
          _lock := {| locked := false; waiting := [] |}; listeners := [];
          calls := cs; jobs := []; effects := es |} (invoke r)
  = {| _parse := onmessage; _buffer := [];
       _lock := {| locked := true; waiting := [] |}; listeners := [];
       calls := cs ++ [fresh_call r]; jobs := [lock_then (length cs)];
       effects := es |}.
Proof. reflexivity. Qed.

Lemma step_tick_admit `{Host} (p : interpreter) (b : Buffer) (l : Lock) (ls : list nat)
    (cs : list call) (js : list job) (es : list effect) (r : request) :
  step {| _parse := p; _buffer := b; _lock := l; listeners := ls;
          calls := cs ++ [fresh_call r]; jobs := lock_then (length cs) :: js;
          effects := es |} tick
  = {| _parse := p; _buffer := b; _lock := l; listeners := ls ++ [length cs];
       calls := cs ++ [fresh_call r]; jobs := js;
       effects := es ++ [push (request_text r +:+ LF); emit_command (request_text r)] |}.
Proof.
  cbn [step jobs]. unfold run_job. state_norm. rewrite list_lookup_middle by done.
  state_norm. cbn [fresh_call request_of]. by rewrite <- (assoc_L (++)).
Qed.

Lemma dispatch_ok `{Host} (b : Buffer) (l : Lock) (id : nat) (cs : list call)
    (js : list job) (es : list effect) (c : call) :
  cs !! id = Some c ->
  ok_promise c = None ->
  dispatch ["ok"]
    {| _parse := onmessage; _buffer := b; _lock := l; listeners := [id];
       calls := cs; jobs := js; effects := es |}
  = ({| _parse := onmessage; _buffer := b; _lock := l; listeners := [];
        calls := <[id := {| request_of := request_of c; ok_lines := ok_lines c;
                            ok_promise := Some (inr (ok_lines c));
                            returned := returned c |}]> cs;
        jobs := js ++ [ok_then id]; effects := es ++ [emit_message "ok"] |}, normal).
Proof.
  intros Hc Hp. cbn [dispatch]. unfold parse_line. cbn [_parse].
  unfold emit_message_event, call_listeners. state_norm. cbn [fold_left].
  unfold ok_onmessage, settle. state_norm. rewrite Hc, Hp. state_norm.
  cbn [String.eqb Ascii.eqb Bool.eqb List.filter]. by rewrite Nat.eqb_refl.
Qed.

Lemma dispatch_error `{Host} (b : Buffer) (l : Lock) (id : nat) (cs : list call)
    (js : list job) (es : list effect) (c : call) (code : string) :
  cs !! id = Some c ->
  ok_promise c = None ->
  dispatch ["error:" +:+ code]
    {| _parse := onmessage; _buffer := b; _lock := l; listeners := [id];
       calls := cs; jobs := js; effects := es |}
  = ({| _parse := onmessage; _buffer := b; _lock := l; listeners := [id];
        calls := <[id := {| request_of := request_of c; ok_lines := ok_lines c;
                            ok_promise := Some (inl (fromCode code));
                            returned := returned c |}]> cs;
        jobs := js ++ [ok_then id];
        effects := es ++ [emit_message ("error:" +:+ code)] |}, normal).
Proof.
  intros Hc Hp. cbn [dispatch]. unfold parse_line. cbn [_parse].
  unfold emit_message_event, call_listeners. state_norm. cbn [fold_left].
  unfold ok_onmessage, settle. state_norm.
  rewrite Hc, Hp, error_line_not_ok, error_line_prefix, error_line_code. by state_norm.
Qed.

Lemma step_tick_settle `{Host} (p : interpreter) (b : Buffer) (ls : list nat)
    (cs : list call) (js : list job) (es : list effect) (id : nat) (c : call)
    (r : outcome (list string)) :
  cs !! id = Some c ->
  ok_promise c = Some r ->
  step {| _parse := p; _buffer := b; _lock := {| locked := true; waiting := [] |};
          listeners := ls; calls := cs; jobs := ok_then id :: js; effects := es |} tick
  = {| _parse := p; _buffer := b; _lock := {| locked := false; waiting := [] |};
       listeners := ls;
       calls := <[id := {| request_of := request_of c; ok_lines := ok_lines c;
                           ok_promise := ok_promise c;
                           returned := Some (and_then r (decode (request_of c))) |}]> cs;
       jobs := js; effects := es |}.
Proof.
  intros Hc Hp. cbn [step jobs]. unfold run_job. state_norm. rewrite Hc, Hp.
  unfold release. state_norm. cbn [waiting]. by state_norm.
Qed.

(** The chunk that holds the lines of an answer and its terminal marker,
    on the stream of a command that was admitted alone. *)
Lemma step_write_answer `{Host} (l : Lock) (cs : list call) (es : list effect)
    (r : request) (lines : list string) (marker : string) (s' : GrblStream) :
  Forall clean_line lines ->
  Forall (fun line => terminal line = false) lines ->
  clean_line marker ->
  dispatch [marker]
    {| _parse := onmessage; _buffer := []; _lock := l; listeners := [length cs];
       calls := <[length cs := {| request_of := r; ok_lines := lines;
                                  ok_promise := None; returned := None |}]>
                  (cs ++ [fresh_call r]);
       jobs := []; effects := es ++ map emit_message lines |} = (s', normal) ->
  step {| _parse := onmessage; _buffer := []; _lock := l; listeners := [length cs];
          calls := cs ++ [fresh_call r]; jobs := []; effects := es |}
       (write (encode_lines (lines ++ [marker])))
  = with_buffer [] s'.
Proof.
  intros Hc Ht Hm Hd. cbn [step]. unfold _write. cbn [_buffer].
  rewrite encode_lines_alone by (apply Forall_app; split; [done|by constructor]).
  rewrite dispatch_app.
  rewrite (dispatch_collects _ _ _ _ _ _ (fresh_call r))
    by (try apply list_lookup_middle; done).
  cbn [fresh_call request_of ok_lines returned app]. by rewrite Hd.
Qed.

Lemma clean_ok : clean_line "ok".
Proof. done. Qed.

Lemma idle_explicit (s : GrblStream) :
  idle s ->
  s = {| _parse := onmessage; _buffer := [];
         _lock := {| locked := false; waiting := [] |}; listeners := [];
         calls := calls s; jobs := []; effects := effects s |}.
Proof. destruct s. unfold idle. simpl. by intros (-> & -> & -> & -> & ->). Qed.

(** X8.  A command from the call to the answer.  On an idle stream an
    operation pushes its text and a line feed and publishes [command]; the
    lines that arrive then, up to [ok], are published as messages and
    become the response, from which the operation makes its result; the
    listener is gone, the lock is free again and the stream is idle. *)
Theorem command_round_trip `{Host} (s : GrblStream) (r : request) (lines : list string) :
  idle s ->
  Forall clean_line lines ->
  Forall (fun line => terminal line = false) lines ->
  let s' := run [invoke r; tick; write (encode_lines (lines ++ ["ok"])); tick] s in
  calls s'
  = calls s ++ [{| request_of := r; ok_lines := lines;
                   ok_promise := Some (inr lines);
                   returned := Some (decode r lines) |}]
  /\ effects s'
     = effects s ++ [push (request_text r +:+ LF); emit_command (request_text r)]
         ++ map emit_message lines ++ [emit_message "ok"]
  /\ idle s'.
Proof.
  intros Hi Hc Ht s'. subst s'. rewrite (idle_explicit s Hi).
  generalize (calls s) as cs. generalize (effects s) as es. intros es cs.
  unfold run. cbn [fold_left calls effects].
  rewrite step_invoke_idle, step_tick_admit. cbn [app].
  assert (length cs < length (cs ++ [fresh_call r])) as Hlt
    by (rewrite length_app; simpl; lia).
  erewrite step_write_answer; [|done|done|apply clean_ok|].
  2:{ apply dispatch_ok; [by apply list_lookup_insert_eq|done]. }
  state_norm. cbn [request_of ok_lines returned app].
  erewrite step_tick_settle;
    [|apply list_lookup_insert_eq; by rewrite length_insert|done].
  cbn [calls effects request_of ok_lines ok_promise returned and_then].
  rewrite !list_insert_insert_eq.
  rewrite insert_app_r_alt by done. rewrite Nat.sub_diag. cbn [insert list_insert].
  split_and!; [done| |done].
  by rewrite <- !(assoc_L (++)).
Qed.

Lemma command_round_trip_witness :
  let s' := run (H := sample_host)
              [invoke Settings; tick; write (encode_lines ["$0=10"; "$1=25"; "ok"]); tick]
              booted in
  (returned <$> last (calls s'))
  = Some (Some (decode (H := sample_host) Settings ["$0=10"; "$1=25"]))
  /\ idle s'.
Proof.
  intros s'.
  destruct (command_round_trip (H := sample_host) booted Settings ["$0=10"; "$1=25"])
    as (Hc & _ & Hi).
  - repeat split.
  - repeat constructor; done.
  - repeat constructor.
  - split; [|exact Hi]. subst s'. cbn [app] in Hc. rewrite Hc. reflexivity.
Defined.

(** X9.  A command that the controller refuses.  The lines up to
    [error:<code>] are published as messages; the operation ends with the
    [CommandError] of the code and the lock is free again, so that the
    next command can go out; the listener of the refused command is still
    subscribed. *)
Theorem command_refused `{Host} (s : GrblStream) (r : request) (lines : list string) (code : string) :
  idle s ->
  Forall clean_line lines ->
  Forall (fun line => terminal line = false) lines ->
  clean_line ("error:" +:+ code) ->
  let s' := run [invoke r; tick;
                 write (encode_lines (lines ++ ["error:" +:+ code])); tick] s in
  calls s'
  = calls s ++ [{| request_of := r; ok_lines := lines;
                   ok_promise := Some (inl (fromCode code));
                   returned := Some (inl (fromCode code)) |}]
  /\ effects s'
     = effects s ++ [push (request_text r +:+ LF); emit_command (request_text r)]
         ++ map emit_message lines ++ [emit_message ("error:" +:+ code)]
  /\ _lock s' = {| locked := false; waiting := [] |}
  /\ jobs s' = [] /\ _buffer s' = []
  /\ listeners s' = [length (calls s)].
Proof.
  intros Hi Hc Ht Hm s'. subst s'. rewrite (idle_explicit s Hi).
  generalize (calls s) as cs. generalize (effects s) as es. intros es cs.
  unfold run. cbn [fold_left calls effects].
  rewrite step_invoke_idle, step_tick_admit. cbn [app].
  assert (length cs < length (cs ++ [fresh_call r])) as Hlt
    by (rewrite length_app; simpl; lia).
  erewrite step_write_answer; [|done|done|done|].
  2:{ apply dispatch_error; [by apply list_lookup_insert_eq|done]. }
  state_norm. cbn [request_of ok_lines returned app].
  erewrite step_tick_settle;
    [|apply list_lookup_insert_eq; by rewrite length_insert|done].
  cbn [calls effects request_of ok_lines ok_promise returned and_then
       _lock jobs _buffer listeners].
  rewrite !list_insert_insert_eq.
  rewrite insert_app_r_alt by done. rewrite Nat.sub_diag. cbn [insert list_insert].
  split_and!; try done.
  by rewrite <- !(assoc_L (++)).
Qed.

Lemma command_refused_witness :
  let s' := run (H := sample_host)
              [invoke killAlarmLock; tick; write (encode_lines ["error:9"]); tick] booted in
  (returned <$> last (calls s'))
  = Some (Some (inl (fromCode (H := sample_host) "9")))
  /\ listeners s' = [0%nat].
Proof.
  intros s'.
  destruct (command_refused (H := sample_host) booted killAlarmLock [] "9")
    as (Hc & _ & _ & _ & _ & Hl).
  - repeat split.
  - constructor.
  - constructor.
  - done.
  - split; [|exact Hl].
    etransitivity; [exact (f_equal (fun cs => returned <$> last cs) Hc)|reflexivity].
Defined.

(** ** The boot as a whole *)

Lemma constructor_explicit :
  constructor
  = {| _parse := onversion; _buffer := [];
       _lock := {| locked := true; waiting := [] |}; listeners := [];
       calls := []; jobs := []; effects := [] |}.
Proof. reflexivity. Qed.

Lemma step_write_boot `{Host} (data version notice : string) (l : Lock)
    (ls : list nat) (cs : list call) (js : list job) (es : list effect) :
  banner data version ->
  clean_line data ->
  clean_line notice ->
  step {| _parse := onversion; _buffer := []; _lock := l; listeners := ls;
          calls := cs; jobs := js; effects := es |}
       (write (encode_lines [data; notice]))
  = {| _parse := onheader; _buffer := []; _lock := l; listeners := ls;
       calls := cs; jobs := js ++ [header_then notice];
       effects := es ++ [emit_version version] |}.
Proof.
  intros Hb%match_version_banner Hd Hn. cbn [step]. unfold _write. cbn [_buffer].
  rewrite encode_lines_alone by (constructor; [done|]; constructor; [done|]; constructor).
  cbn [dispatch]. unfold parse_line at 1. cbn [_parse]. rewrite Hb. state_norm.
  unfold parse_line. by state_norm.
Qed.

Lemma step_invoke_waits `{Host} (p : interpreter) (b : Buffer) (w ls : list nat)
    (cs : list call) (js : list job) (es : list effect) (r : request) :
  step {| _parse := p; _buffer := b; _lock := {| locked := true; waiting := w |};
          listeners := ls; calls := cs; jobs := js; effects := es |} (invoke r)
  = {| _parse := p; _buffer := b;
       _lock := {| locked := true; waiting := w ++ [length cs] |};
       listeners := ls; calls := cs ++ [fresh_call r]; jobs := js; effects := es |}.
Proof. reflexivity. Qed.

Lemma step_tick_header `{Host} (p : interpreter) (b : Buffer) (l : Lock)
    (cs : list call) (js : list job) (es : list effect) (data : string) :
  step {| _parse := p; _buffer := b; _lock := l; listeners := [];
          calls := cs; jobs := header_then data :: js; effects := es |} tick
  = release {| _parse := onmessage; _buffer := b; _lock := l; listeners := [];
               calls := cs; jobs := js; effects := es ++ [emit_message data] |}.
Proof. reflexivity. Qed.

(** X10.  The boot as a whole.  When the banner and the line after it
    arrive, the version of the banner is published, then the line as a
    message, and the stream is idle.  An operation that was called before
    waits until then: its text is pushed after the message, and its
    listener is the only one. *)
Theorem boot_then_first_command `{Host} (data version notice : string) (r : request) :
  banner data version ->
  clean_line data ->
  clean_line notice ->
  (let s := run [write (encode_lines [data; notice]); tick] constructor in
   effects s = [emit_version version; emit_message notice] /\ idle s)
  /\ (let s := run [invoke r; write (encode_lines [data; notice]); tick; tick] constructor in
      effects s = [emit_version version; emit_message notice;
                   push (request_text r +:+ LF); emit_command (request_text r)]
      /\ _parse s = onmessage /\ listeners s = [0%nat]
      /\ locked (_lock s) = true /\ jobs s = []).
Proof.
  intros Hb Hd Hn. split; intros s; subst s; rewrite constructor_explicit;
    unfold run; cbn [fold_left].
  - rewrite (step_write_boot data version notice) by done. cbn [app].
    rewrite step_tick_header. unfold release. state_norm. cbn [waiting]. state_norm.
    by repeat split.
  - rewrite step_invoke_waits. cbn [app length].
    rewrite (step_write_boot data version notice) by done. cbn [app length].
    rewrite step_tick_header. unfold release. state_norm. cbn [waiting]. state_norm.
    cbn [app].
    rewrite (step_tick_admit onmessage [] _ [] [] [] _ r).
    by repeat split.
Qed.

Lemma boot_then_first_command_witness :
  let s := run (H := sample_host)
             [invoke Status; write (encode_lines [version_banner; unlock_notice]); tick; tick]
             constructor in
  effects s = [emit_version "1.1f"; emit_message unlock_notice;
               push ("?" +:+ LF); emit_command "?"].
Proof.
  refine (proj1 (proj2 (boot_then_first_command (H := sample_host)
                          version_banner "1.1f" unlock_notice Status _ _ _))).
  - apply match_version_banner. reflexivity.
  - done.
  - done.
Defined.

(** ** The decoders, continued *)

Lemma app_empty_s (s : string) : s +:+ "" = s.
Proof. induction s as [|a s IH]; [done|]. by rewrite app_String, IH. Qed.

Lemma slice_to_app (a b : string) : JsString.slice_to (String.length a) (a +:+ b) = a.
Proof. induction a as [|c a IH]; [by destruct b|]. simpl. by rewrite IH. Qed.

Lemma slice_from_app_plus (a r : string) (n : nat) :
  JsString.slice_from (String.length a + n) (a +:+ r) = JsString.slice_from n r.
Proof. induction a as [|c a IH]; [done|]. exact IH. Qed.

Lemma slice_between (a body b : string) :
  JsString.slice (String.length a) (String.length b) (a +:+ body +:+ b) = body.
Proof.
  unfold JsString.slice. rewrite slice_from_app, !length_app_s.
  replace (String.length a + (String.length body + String.length b)
           - String.length b - String.length a)%nat
    with (String.length body) by lia.
  apply slice_to_app.
Qed.

Lemma endsWith_longer (p a r : string) :
  (String.length p <= String.length r)%nat ->
  JsString.endsWith p (a +:+ r) = JsString.endsWith p r.
Proof.
  intros Hl. unfold JsString.endsWith. rewrite length_app_s.
  rewrite !decide_True by lia.
  replace (String.length a + String.length r - String.length p)%nat
    with (String.length a + (String.length r - String.length p))%nat by lia.
  by rewrite slice_from_app_plus.
Qed.

Lemma endsWith_colon (s : string) : JsString.endsWith "]" (s +:+ ":") = false.
Proof. by rewrite endsWith_longer. Qed.

(** X11.  [parseMessage] returns the text between [[<prefix>:] and the
    closing bracket for the inputs of that shape and for no others; every
    other input, the empty string and [undefined] among them, makes it
    throw a [ProtocolError] that carries the input.  [help] on an empty
    response fails in this way. *)
Theorem parseMessage_brackets (prefix : string) :
  (forall input body,
     parseMessage (Some input) prefix = inr body
     <-> input = "[" +:+ prefix +:+ ":" +:+ body +:+ "]")
  /\ (forall input,
        (forall body, input <> Some ("[" +:+ prefix +:+ ":" +:+ body +:+ "]")) ->
        parseMessage input prefix
        = inl (ProtocolError ("Expected input format [" +:+ prefix +:+ ":]") input))
  /\ help_decode [] = inl (ProtocolError "Expected input format [HLP:]" None).
Proof.
  assert (forall input body,
            parseMessage (Some input) prefix = inr body
            <-> input = "[" +:+ prefix +:+ ":" +:+ body +:+ "]") as Hiff.
  { intros input body. unfold parseMessage.
    remember ("[" +:+ prefix +:+ ":") as pre eqn:Epre.
    assert (forall x, "[" +:+ prefix +:+ ":" +:+ x = pre +:+ x) as Hpre.
    { intros x. subst pre. by rewrite (app_assoc_s "[" _ x), (app_assoc_s prefix ":" x). }
    assert (forall x, falsy (Some (pre +:+ x)) = false) as Hfalsy by (by subst pre).
    rewrite Hpre. split.
    - destruct (falsy (Some input)) eqn:Hf; [done|].
      destruct (JsString.startsWith pre input) eqn:Hs; [|done].
      destruct (JsString.endsWith "]" input) eqn:He; [|done].
      cbn [negb orb]. intros [= <-].
      apply startsWith_inv in Hs. revert Hs He.
      generalize (JsString.slice_from (String.length pre) input) as rest.
      intros rest -> He.
      destruct rest as [|c rest].
      { exfalso. subst pre. rewrite app_empty_s in He.
        rewrite <- (app_assoc_s "[" prefix ":"), endsWith_colon in He. done. }
      rewrite endsWith_longer in He by (simpl; lia).
      apply endsWith_inv in He. revert He.
      generalize (String c rest) as r. intros r He.
      unfold JsString.slice. rewrite slice_from_app, length_app_s.
      replace (String.length pre + String.length r - 1 - String.length pre)%nat
        with (String.length r - String.length "]")%nat by (simpl; lia).
      by rewrite <- He.
    - intros ->.
      rewrite Hfalsy, startsWith_app. rewrite <- (app_assoc_s pre body "]"), endsWith_app.
      cbn [negb orb]. rewrite (app_assoc_s pre body "]").
      pose proof (slice_between pre body "]") as Hsl.
      change (String.length "]") with 1%nat in Hsl. by rewrite Hsl. }
  split_and!; [exact Hiff| |reflexivity].
  assert (forall input,
            inl (ProtocolError ("Expected input format " +:+ ("[" +:+ prefix +:+ ":") +:+ "]") input)
            = (inl (ProtocolError ("Expected input format [" +:+ prefix +:+ ":]") input)
               : outcome string)) as Hmsg.
  { intros input. do 2 f_equal. rewrite (app_assoc_s "[" _ "]"), (app_assoc_s prefix ":" "]").
    reflexivity. }
  intros [input|] Hno; [|apply Hmsg].
  destruct (parseMessage (Some input) prefix) as [e|body] eqn:E.
  - unfold parseMessage in E |- *.
    destruct (falsy (Some input) || negb (JsString.startsWith _ input)
              || negb (JsString.endsWith "]" input)); [|done].
    rewrite <- E. apply Hmsg.
  - apply Hiff in E. by destruct (Hno body); subst.
Qed.

Lemma parseMessage_brackets_witness :
  parseMessage (Some "[HLP:$$ $# $G $I $N]") "HLP" = inr "$$ $# $G $I $N"
  /\ parseMessage (Some "ok") "HLP"
     = inl (ProtocolError "Expected input format [HLP:]" (Some "ok")).
Proof.
  split.
  - apply (proj1 (parseMessage_brackets "HLP")). reflexivity.
  - apply (proj1 (proj2 (parseMessage_brackets "HLP")) (Some "ok")).
    intros body Hb. discriminate Hb.
Defined.

Lemma status_segment_unrecognized (result : MachineStatus) (segment : string) :
  (forall key, segment_key segment = Some key -> ~ In key recognized_keys) ->
  status_segment result segment = result.
Proof.
  intros Hkey. unfold status_segment, segment_key in *.
  rewrite head_lookup in Hkey.
  destruct (JsString.split _ segment !! 0%nat) as [key|]; [|by destruct result].
  specialize (Hkey key eq_refl). unfold recognized_keys in Hkey. simpl in Hkey.
  destruct result.
  repeat (rewrite bool_decide_eq_false_2; [|intros [= ->]; tauto]). done.
Qed.

Lemma status_segment_state (result : MachineStatus) (segment : string) :
  state (status_segment result segment) = state result.
Proof.
  unfold status_segment. destruct result. by repeat case_bool_decide.
Qed.

Lemma fold_status_segment_state (segments : list string) (result : MachineStatus) :
  state (fold_left status_segment segments result) = state result.
Proof.
  revert result. induction segments as [|seg segments IH]; intros result; [done|].
  cbn [fold_left]. by rewrite IH, status_segment_state.
Qed.

Lemma slice_wrapped (inner : string) :
  JsString.slice 1 1 ("<" +:+ inner +:+ ">") = inner.
Proof. exact (slice_between "<" inner ">"). Qed.

(** X12.  The state of a status report is the text between [<] and the
    first [|] (or [>]), whatever the segments are; and a report in which
    no segment, the first included, has one of the six keys has no other
    field. *)
Theorem status_state_and_absent_fields (before : list string) (inner : string) :
  let segments := JsString.split (Ascii.eqb "|") inner in
  exists result,
    status_decode (before ++ ["<" +:+ inner +:+ ">"]) = inr result
    /\ state result = head segments
    /\ (Forall (fun segment =>
                  forall key, segment_key segment = Some key ->
                              ~ In key recognized_keys) segments ->
        result = state_only (head segments)).
Proof.
  intros segments. unfold status_decode. rewrite last_snoc.
  assert (wrapped ("<" +:+ inner +:+ ">")) as Hw by by exists inner.
  apply wrapped_check, andb_true_iff in Hw as [-> ->].
  assert (falsy (Some ("<" +:+ inner +:+ ">")) = false) as -> by done.
  cbn [negb orb].
  rewrite !slice_wrapped. fold segments.
  eexists. split; [done|]. split.
  - rewrite fold_status_segment_state. cbn [state]. symmetry. apply head_lookup.
  - intros Hall. rewrite <- head_lookup. unfold state_only.
    generalize {| state := head segments; machinePosition := None;
                  workCoordinateOffset := None; buffer := None;
                  feedAndSpeed := None; pinState := None;
                  overrideValues := None |} as result.
    induction Hall as [|seg segs Hseg _ IH]; intros result; [done|].
    cbn [fold_left]. by rewrite status_segment_unrecognized.
Qed.

Lemma status_state_and_absent_fields_witness :
  status_decode ["<Idle|Ln:5,200>"] = inr (state_only (Some "Idle")).
Proof.
  destruct (status_state_and_absent_fields [] "Idle|Ln:5,200") as (result & Hd & _ & Ha).
  rewrite (Ha ltac:(repeat constructor; intros key [= <-]; vm_compute;
                    intuition discriminate)) in Hd.
  exact Hd.
Defined.

(** ** What is written *)

Lemma map_request_insert (cs : list call) (id : nat) (c c' : call) :
  cs !! id = Some c -> request_of c' = request_of c ->
  map request_of (<[id := c']> cs) = map request_of cs.
Proof.
  intros Hc Hr. change (map request_of) with (fmap (M := list) request_of).
  rewrite list_fmap_insert, Hr. apply list_insert_id. by rewrite list_lookup_fmap, Hc.
Qed.

Lemma requests_ok_onmessage `{Host} (id : nat) (data : string) (s : GrblStream) :
  requests (ok_onmessage id data s) = requests s.
Proof.
  unfold requests, ok_onmessage, settle. destruct (calls s !! id) as [c|] eqn:Hc; [|done].
  destruct (String.eqb data "ok"); [|destruct (JsString.startsWith "error:" data)];
    try destruct (ok_promise c); cbn [calls with_listeners with_calls enqueue];
    try done; by apply (map_request_insert _ _ c).
Qed.

Lemma requests_emit `{Host} (data : string) (s : GrblStream) :
  requests (emit_message_event data s) = requests s.
Proof.
  unfold emit_message_event.
  change (requests s) with (requests (perform (emit_message data) s)).
  generalize (perform (emit_message data) s) as s0.
  induction (listeners s) as [|id ids IH]; intros s0; [done|].
  change (call_listeners data (id :: ids) s0)
    with (call_listeners data ids (ok_onmessage id data s0)).
  by rewrite IH, requests_ok_onmessage.
Qed.

Lemma requests_release (s : GrblStream) : requests (release s) = requests s.
Proof. unfold requests. by rewrite calls_release. Qed.

Lemma run_job_writes `{Host} (j : job) (s : GrblStream) :
  requests (run_job j s) = requests s
  /\ pushed (run_job j s)
     = pushed s ++ match j with
                   | lock_then id =>
                       match calls s !! id with
                       | Some c => [wire_text c]
                       | None => []
                       end
                   | _ => []
                   end.
Proof.
  destruct j as [data|id|id]; cbn [run_job].
  - split.
    + rewrite requests_release. unfold requests. cbn [calls with_parse].
      apply requests_emit.
    + unfold pushed. destruct (release_keeps (with_parse onmessage (emit_message_event data s)))
        as (_ & _ & ->). cbn [effects with_parse].
      destruct (emit_message_event_keeps data s) as (_ & _ & _ & ->).
      by rewrite omap_app.
  - destruct (calls s !! id) as [c|]; [|by rewrite app_nil_r].
    split; [done|]. unfold pushed. cbn [effects with_listeners perform].
    rewrite !omap_app. cbn [omap]. by rewrite app_nil_r.
  - destruct (calls s !! id) as [c|] eqn:Hc; [|by rewrite app_nil_r].
    destruct (ok_promise c); [|by rewrite app_nil_r]. split.
    + unfold requests. cbn [calls with_calls]. rewrite calls_release.
      by apply (map_request_insert _ _ c).
    + unfold pushed. cbn [effects with_calls].
      destruct (release_keeps s) as (_ & _ & ->). by rewrite app_nil_r.
Qed.

Lemma parse_line_writes `{Host} (data : string) (s : GrblStream) :
  requests (parse_line data s).1 = requests s
  /\ pushed (parse_line data s).1 = pushed s.
Proof.
  unfold parse_line. destruct (_parse s).
  - destruct (match_version data); cbn [fst]; split; try done;
      unfold pushed; cbn [effects with_parse perform]; rewrite omap_app;
      by rewrite app_nil_r.
  - done.
  - cbn [fst]. split; [apply requests_emit|].
    unfold pushed. destruct (emit_message_event_keeps data s) as (_ & _ & _ & ->).
    rewrite omap_app. by rewrite app_nil_r.
Qed.

Lemma dispatch_writes `{Host} (lines : list string) (s : GrblStream) :
  requests (dispatch lines s).1 = requests s
  /\ pushed (dispatch lines s).1 = pushed s.
Proof.
  revert s. induction lines as [|data lines IH]; intros s; [done|].
  cbn [dispatch]. pose proof (parse_line_writes data s) as [Hr Hp].
  destruct (parse_line data s) as [s' []]; cbn [fst] in *; [|done].
  destruct (IH s') as [-> ->]. done.
Qed.

(** X13.  The stream writes nothing of its own: every chunk that was
    pushed is the text of an operation that was called, followed by one
    line feed. *)
Theorem pushes_only_called_texts `{Host} (actions : list action) :
  let s := run actions constructor in
  Forall (fun chunk => exists r, In r (requests s) /\ chunk = request_text r +:+ LF)
    (pushed s).
Proof.
  induction actions as [|a actions IH] using rev_ind; [by constructor|].
  rewrite run_snoc. cbv zeta in *. revert IH.
  generalize (run actions constructor) as s. intros s IH.
  destruct a as [r|data|]; cbn [step].
  - assert (requests (call_operation r s) = requests s ++ [r]
            /\ pushed (call_operation r s) = pushed s) as [-> ->].
    { unfold call_operation, acquire, requests, pushed. cbn [_lock with_calls].
      destruct (locked (_lock s));
        cbn [calls effects with_lock with_calls enqueue]; by rewrite map_app. }
    eapply Forall_impl; [exact IH|]. intros chunk (r0 & Hin & ->).
    exists r0. split; [|done]. apply in_or_app. by left.
  - unfold _write. destruct (frame (_buffer s) data) as [lines rest].
    pose proof (dispatch_writes lines s) as [Hr Hp].
    destruct (dispatch lines s) as [s' []]; cbn [fst] in *.
    + unfold requests, pushed in *. cbn [calls effects with_buffer].
      by rewrite Hr, Hp.
    + by rewrite Hr, Hp.
  - destruct (jobs s) as [|j js]; [done|].
    destruct (run_job_writes j (with_jobs js s)) as [Hr Hp].
    unfold with_jobs in *. rewrite Hr, Hp. unfold requests, pushed in *.
    cbn [calls effects] in *. apply Forall_app. split; [done|].
    destruct j as [|id|]; [constructor| |constructor].
    destruct (calls s !! id) as [c|] eqn:Hc; [|constructor].
    constructor; [|constructor]. exists (request_of c). split; [|done].
    apply in_map. apply list_elem_of_In. by eapply list_elem_of_lookup_2.
Qed.

(** ** The command after a refused one *)

Lemma lookup_tail1 {A : Type} (cs : list A) (a b : A) (t : list A) :
  (cs ++ a :: b :: t) !! S (length cs) = Some b.
Proof. rewrite lookup_app_r by lia. by replace (S (length cs) - length cs) with 1 by lia. Qed.

Lemma insert_tail0 {A : Type} (cs : list A) (a x : A) (t : list A) :
  <[length cs := x]> (cs ++ a :: t) = cs ++ x :: t.
Proof. rewrite insert_app_r_alt by done. by rewrite Nat.sub_diag. Qed.

Lemma insert_tail1 {A : Type} (cs : list A) (a b x : A) (t : list A) :
  <[S (length cs) := x]> (cs ++ a :: b :: t) = cs ++ a :: x :: t.
Proof.
  rewrite insert_app_r_alt by lia. by replace (S (length cs) - length cs) with 1 by lia.
Qed.

Lemma call_eta (c : call) :
  {| request_of := request_of c; ok_lines := ok_lines c;
     ok_promise := ok_promise c; returned := returned c |} = c.
Proof. by destruct c. Qed.

(** The lines of an answer as two listeners collect them: the one of an
    earlier call and the one of the call that waits. *)
Lemma dispatch_collects_pair `{Host} (b : Buffer) (l : Lock) (cs : list call)
    (js : list job) (es : list effect) (c1 c2 : call) (lines : list string) :
  Forall (fun line => terminal line = false) lines ->
  dispatch lines
    {| _parse := onmessage; _buffer := b; _lock := l;
       listeners := [length cs; S (length cs)];
       calls := cs ++ [c1; c2]; jobs := js; effects := es |}
  = ({| _parse := onmessage; _buffer := b; _lock := l;
        listeners := [length cs; S (length cs)];
        calls := cs ++ [{| request_of := request_of c1;
                           ok_lines := ok_lines c1 ++ lines;
                           ok_promise := ok_promise c1; returned := returned c1 |};
                        {| request_of := request_of c2;
                           ok_lines := ok_lines c2 ++ lines;
                           ok_promise := ok_promise c2; returned := returned c2 |}];
        jobs := js; effects := es ++ map emit_message lines |}, normal).
Proof.
  intros Hl. revert es c1 c2.
  induction Hl as [|data lines Hd _ IH]; intros es c1 c2.
  - cbn [dispatch map]. by rewrite !app_nil_r, !call_eta.
  - apply terminal_false in Hd as [Hok Herr].
    cbn [dispatch]. unfold parse_line. cbn [_parse].
    unfold emit_message_event, call_listeners. state_norm. cbn [fold_left].
    unfold ok_onmessage at 2. state_norm. rewrite list_lookup_middle by done.
    rewrite Hok, Herr. state_norm. rewrite insert_tail0.
    unfold ok_onmessage. state_norm. rewrite lookup_tail1.
    rewrite Hok, Herr. state_norm. rewrite insert_tail1.
    rewrite IH. cbn [request_of ok_lines ok_promise returned].
    by rewrite <- !(assoc_L (++)).
Qed.

Lemma dispatch_ok_pair `{Host} (b : Buffer) (l : Lock) (cs : list call)
    (js : list job) (es : list effect) (c1 c2 : call) (p : outcome (list string)) :
  ok_promise c1 = Some p ->
  ok_promise c2 = None ->
  dispatch ["ok"]
    {| _parse := onmessage; _buffer := b; _lock := l;
       listeners := [length cs; S (length cs)];
       calls := cs ++ [c1; c2]; jobs := js; effects := es |}
  = ({| _parse := onmessage; _buffer := b; _lock := l; listeners := [];
        calls := cs ++ [c1; {| request_of := request_of c2; ok_lines := ok_lines c2;
                               ok_promise := Some (inr (ok_lines c2));
                               returned := returned c2 |}];
        jobs := js ++ [ok_then (S (length cs))];
        effects := es ++ [emit_message "ok"] |}, normal).
Proof.
  intros Hp1 Hp2. cbn [dispatch]. unfold parse_line. cbn [_parse].
  unfold emit_message_event, call_listeners. state_norm. cbn [fold_left].
  unfold ok_onmessage at 2. unfold settle. state_norm.
  rewrite list_lookup_middle by done. rewrite Hp1. state_norm.
  cbn [String.eqb Ascii.eqb Bool.eqb List.filter]. rewrite Nat.eqb_refl.
  replace (S (length cs) =? length cs)%nat with false
    by (symmetry; apply Nat.eqb_neq; lia).
  cbn [negb]. unfold ok_onmessage, settle. state_norm. rewrite lookup_tail1, Hp2.
  state_norm. cbn [String.eqb Ascii.eqb Bool.eqb List.filter].
  rewrite Nat.eqb_refl. cbn [negb]. by rewrite insert_tail1.
Qed.

Lemma step_invoke_free `{Host} (p : interpreter) (b : Buffer) (w ls : list nat)
    (cs : list call) (js : list job) (es : list effect) (r : request) :
  step {| _parse := p; _buffer := b; _lock := {| locked := false; waiting := w |};
          listeners := ls; calls := cs; jobs := js; effects := es |} (invoke r)
  = {| _parse := p; _buffer := b; _lock := {| locked := true; waiting := w |};
       listeners := ls; calls := cs ++ [fresh_call r];
       jobs := js ++ [lock_then (length cs)]; effects := es |}.
Proof. reflexivity. Qed.

Lemma step_write `{Host} (s : GrblStream) (data : Buffer) :
  step s (write data) = (_write data s).1.
Proof. reflexivity. Qed.

(** X14.  A refused command does not spoil the next one.  After a command
    that ended with [error:<code>], whose listener is still subscribed, a
    second command on the same stream pushes its text, gets the lines up
    to [ok] as its response and returns its result; the [ok] removes both
    listeners, and the stream is idle again.  The first operation still
    ends with its [CommandError]. *)
Theorem command_after_refusal `{Host} (s : GrblStream) (r1 r2 : request)
    (lines1 lines2 : list string) (code : string) :
  idle s ->
  Forall clean_line lines1 ->
  Forall (fun line => terminal line = false) lines1 ->
  clean_line ("error:" +:+ code) ->
  Forall clean_line lines2 ->
  Forall (fun line => terminal line = false) lines2 ->
  let s1 := run [invoke r1; tick;
                 write (encode_lines (lines1 ++ ["error:" +:+ code])); tick] s in
  let s2 := run [invoke r2; tick; write (encode_lines (lines2 ++ ["ok"])); tick] s1 in
  map returned (calls s2)
  = map returned (calls s)
      ++ [Some (inl (fromCode code)); Some (decode r2 lines2)]
  /\ pushed s2 = pushed s ++ [request_text r1 +:+ LF; request_text r2 +:+ LF]
  /\ idle s2.
Proof.
  intros Hi Hc1 Ht1 Hm Hc2 Ht2 s1 s2. subst s2 s1. rewrite (idle_explicit s Hi).
  generalize (calls s) as cs. generalize (effects s) as es. intros es cs.
  unfold run. cbn [fold_left calls effects].
  rewrite step_invoke_idle, step_tick_admit. cbn [app].
  erewrite step_write_answer; [|done|done|done|].
  2:{ apply dispatch_error; [apply list_lookup_insert_eq|done].
      rewrite length_app; simpl; lia. }
  state_norm. cbn [request_of ok_lines returned app].
  erewrite step_tick_settle;
    [|apply list_lookup_insert_eq; rewrite !length_insert, length_app; simpl; lia|done].
  cbn [request_of ok_lines ok_promise returned and_then].
  rewrite !list_insert_insert_eq, insert_tail0.
  rewrite step_invoke_free. cbn [app].
  rewrite step_tick_admit.
  replace (length (cs ++ [{| request_of := r1; ok_lines := lines1;
                             ok_promise := Some (inl (fromCode code));
                             returned := Some (inl (fromCode code)) |}]))
    with (S (length cs)) by (rewrite length_app; simpl; lia).
  rewrite <- (assoc_L (++) cs). cbn [app].
  rewrite step_write. unfold _write. cbn [_buffer].
  rewrite encode_lines_alone
    by (apply Forall_app; split; [done|constructor; [apply clean_ok|constructor]]).
  rewrite dispatch_app, dispatch_collects_pair by done.
  cbn [fresh_call request_of ok_lines ok_promise returned app].
  erewrite dispatch_ok_pair by done.
  cbn [request_of ok_lines ok_promise returned app fst]. state_norm.
  erewrite step_tick_settle; [|apply lookup_tail1|done].
  cbn [request_of ok_lines ok_promise returned and_then].
  rewrite insert_tail1.
  split_and!.
  - cbn [calls]. rewrite map_app. reflexivity.
  - unfold pushed. cbn [effects]. rewrite !omap_app. cbn [omap].
    assert (forall ls, omap (fun e => match e with push chunk => Some chunk | _ => None end)
                         (map emit_message ls) = []) as Hnone.
    { intros ls. induction ls; [done|]. done. }
    rewrite !Hnone, !app_nil_r. by rewrite <- !(assoc_L (++)).
  - by repeat split.
Qed.

Lemma command_after_refusal_witness :
  let s1 := run (H := sample_host)
              [invoke killAlarmLock; tick; write (encode_lines ["error:9"]); tick] booted in
  let s2 := run (H := sample_host)
              [invoke Status; tick; write (encode_lines ["<Idle>"; "ok"]); tick] s1 in
  map returned (calls s2)
  = [Some (inl (fromCode (H := sample_host) "9"));
     Some (decode (H := sample_host) Status ["<Idle>"])]
  /\ idle s2.
Proof.
  intros s1 s2.
  destruct (command_after_refusal (H := sample_host) booted killAlarmLock Status
              [] ["<Idle>"] "9") as (Hr & _ & Hi).
  - repeat split.
  - constructor.
  - constructor.
  - done.
  - repeat constructor; done.
  - repeat constructor.
  - split; [exact Hr|exact Hi].
Defined.

(** ** Edges of the decoders *)

Lemma split_whole (sep : ascii -> bool) (s : string) :
  JsString.all (fun c => negb (sep c)) s = true -> JsString.split sep s = [s].
Proof.
  induction s as [|a s IH]; [done|].
  rewrite all_String. intros [Ha Hs]%andb_true_iff.
  cbn [JsString.split]. apply negb_true_iff in Ha. by rewrite Ha, IH.
Qed.

(** X15.  A segment with fewer values than its field has parts is no
    error: the parts that are missing are [NaN] (or [undefined] for the
    pin state).  [MPos:<a>] gives the position [(parseFloat a, NaN, NaN)],
    [MPos] alone gives three [NaN], and [Pn] alone leaves the pin state
    [undefined]. *)
Theorem short_segments (result : MachineStatus) (a : string) :
  JsString.all (fun c => negb (Ascii.eqb c ":" || Ascii.eqb c ",")) a = true ->
  machinePosition (status_segment result ("MPos:" +:+ a))
  = Some (JsNumber.parseFloat (Some a), NaN, NaN)
  /\ machinePosition (status_segment result "MPos") = Some (NaN, NaN, NaN)
  /\ pinState (status_segment result "Pn") = None
  /\ buffer (status_segment result ("Bf:" +:+ a))
     = Some (JsNumber.parseInt (Some a), NaN).
Proof.
  intros Ha. unfold status_segment.
  assert (JsString.split (fun ch => Ascii.eqb ch ":" || Ascii.eqb ch ",") ("MPos:" +:+ a)
          = ["MPos"; a]) as ->.
  { simpl. by rewrite split_whole. }
  assert (JsString.split (fun ch => Ascii.eqb ch ":" || Ascii.eqb ch ",") ("Bf:" +:+ a)
          = ["Bf"; a]) as ->.
  { simpl. by rewrite split_whole. }
  destruct result. split_and!; reflexivity.
Qed.

Lemma short_segments_witness :
  machinePosition (status_segment (state_only (Some "Idle")) "MPos:1.500")
  = Some (Fin (3 # 2), NaN, NaN).
Proof.
  exact (proj1 (short_segments (state_only (Some "Idle")) "1.500" eq_refl)).
Defined.

(** X16.  The message of a [CommandError].  For a code that the catalog
    does not have, the text that [Error] gets is
    [[undefined] undefined (code: <code>)]; for a code that it has, the
    text is made of the message and the description of the first row with
    that code. *)
Theorem error_message_of_code `{Host} (code : string) :
  (Forall (fun r => r !! "Error Code" <> Some code) ERROR_CODES ->
   error_message (fromCode code) = "[undefined] undefined (code: " +:+ code +:+ ")")
  /\ (forall before r after message description,
        ERROR_CODES = before ++ r :: after ->
        Forall (fun r' => r' !! "Error Code" <> Some code) before ->
        r !! "Error Code" = Some code ->
        r !! "Error Message" = Some message ->
        r !! "Error Description" = Some description ->
        error_message (fromCode code)
        = "[" +:+ message +:+ "] " +:+ description +:+ " (code: " +:+ code +:+ ")").
Proof.
  split.
  - intros Hnone. unfold fromCode. rewrite find_row_none by done.
    rewrite !lookup_empty. reflexivity.
  - intros before r after message description Hrows Hbefore Hr Hm Hd.
    unfold fromCode. rewrite Hrows, find_row_first by done.
    rewrite Hm, Hd. reflexivity.
Qed.

Lemma error_message_of_code_witness :
  error_message (fromCode (H := sample_host) "9")
  = "[G-code lock] G-code commands are locked out during alarm or jog state. (code: 9)"
  /\ error_message (fromCode (H := sample_host) "77")
     = "[undefined] undefined (code: 77)".
Proof.
  split.
  - refine (proj2 (error_message_of_code (H := sample_host) "9")
             [ {[ "Error Code" := "1";
                  "Error Message" := "Expected command letter";
                  "Error Description" := "G-code words consist of a letter and a value. Letter was not found." ]} ]
             {[ "Error Code" := "9";
                "Error Message" := "G-code lock";
                "Error Description" := "G-code commands are locked out during alarm or jog state." ]}
             [] "G-code lock"
             "G-code commands are locked out during alarm or jog state."
             eq_refl _ eq_refl eq_refl eq_refl).
    constructor; [|constructor]. vm_compute. discriminate.
  - apply (proj1 (error_message_of_code (H := sample_host) "77")).
    repeat constructor; vm_compute; discriminate.
Defined.

(** * [position], from the call to the wire *)






